(** * AllyWrapper.vue: a labelled form-field wrapper

    A shallow embedding of the [<script setup>] block and of the template of
    [src/components/ally/AllyWrapper.vue], followed by the properties of its
    error-reporting protocol, of its [aria-describedby] computation and of its
    [v-model] pass-through.

    Conventions of the embedding.
    - A JavaScript [string] is a [string]; [string | undefined] is an
      [option string], with [None] for [undefined].
    - The component instance is a record holding the props as the parent
      passed them, the presence of the [helptext] slot and the
      [isUnmounted] flag of the Vue instance.
    - The injected form context is an object of two methods. It is embedded
      as a record of two state transformers over the state [A] of the
      ancestor; the calls an ancestor observes are obtained by running the
      component against the ancestor that records them ([recorder]).
    - Side effects (calls into the form context, emitted events) are written
      in a small state monad over the [World].
    - A JavaScript [number] is a binary64 float; the component only passes
      it on.

    What is taken from Vue.
    - [withDefaults] replaces a prop that is left out by its default.
    - A watcher on a getter runs its callback when the value of the getter
      has changed, with the new and the old value; with [immediate: true] it
      also runs once during [setup], the old value being [undefined].
    - The parent changes the props one render at a time, and the watchers
      are flushed after each render, on the props as the render leaves
      them. A render changes one prop ([Set_id], ...) or several at once
      ([Set_props]); in the second case the two watchers can both run, in
      the order in which the parent binds [id] and [errorMessage].
    - Unmounting stops the watchers, then runs the [onUnmounted] hooks;
      [emit] on an unmounted instance does nothing. *)

From Stdlib Require Import String Ascii List Bool.
From Stdlib Require Import Floats.PrimFloat.
Import ListNotations.
Local Open Scope string_scope.
Local Open Scope list_scope.

Set Implicit Arguments.

(* ================================================================== *)
(** ** JavaScript primitives used by the component *)
(* ================================================================== *)

Module JS.

(** [Boolean(s)] for a string: every string but the empty one is truthy. *)
Definition truthy (s : string) : bool :=
  match s with
  | EmptyString => false
  | String _ _ => true
  end.

(** [s || d] on strings. *)
Definition or_else (s d : string) : string :=
  if truthy s then s else d.

(** [arr.filter(Boolean)] on an array of [string | undefined]: the
    entries that are neither [undefined] nor the empty string, in order. *)
Fixpoint filter_Boolean (arr : list (option string)) : list string :=
  match arr with
  | [] => []
  | Some s :: rest =>
      if truthy s then s :: filter_Boolean rest else filter_Boolean rest
  | None :: rest => filter_Boolean rest
  end.

(** [Set.prototype.has] and [Set.prototype.add] on a set of strings. A
    [Set] iterates in insertion order, so it is kept as the list of its
    elements in that order. *)
Definition Set_has (s : list string) (x : string) : bool :=
  existsb (String.eqb x) s.

Definition Set_add (s : list string) (x : string) : list string :=
  if Set_has s x then s else s ++ [x].

(** [new Set(arr)]: the elements are added one by one, from the left. *)
Definition new_Set (arr : list string) : list string :=
  fold_left Set_add arr [].

(** [Array.from(set)]: the elements in insertion order. *)
Definition Array_from (s : list string) : list string := s.

(** [arr.join(sep)]. *)
Fixpoint join (sep : string) (arr : list string) : string :=
  match arr with
  | [] => ""
  | [x] => x
  | x :: rest => x ++ sep ++ join sep rest
  end.

End JS.

(* ================================================================== *)
(** ** Props *)
(* ================================================================== *)

(** [modelValue: string | number]. *)
Inductive ModelValue : Type :=
| MString (s : string)
| MNumber (n : float).

(** The props as the parent passes them: an optional prop that is left out
    is [None]. *)
Record RawProps : Type := mkRawProps {
  raw_id : string;
  raw_label : string;
  raw_modelValue : ModelValue;
  raw_required : option bool;
  raw_ariaDescribedby : option string;
  raw_errorMessage : option string;
  raw_reserveErrorSpace : option bool;
  raw_autocomplete : option string
}.

(** The props as the component reads them, after [withDefaults]. *)
Record Props : Type := mkProps {
  id : string;
  label : string;
  modelValue : ModelValue;
  required : bool;
  ariaDescribedby : option string;
  errorMessage : string;
  reserveErrorSpace : bool;
  autocomplete : option string
}.

Definition default {X : Type} (d : X) (v : option X) : X :=
  match v with
  | Some x => x
  | None => d
  end.

Definition withDefaults (r : RawProps) : Props :=
  {| id := raw_id r;
     label := raw_label r;
     modelValue := raw_modelValue r;
     required := default false (raw_required r);
     ariaDescribedby := raw_ariaDescribedby r;
     errorMessage := default "" (raw_errorMessage r);
     reserveErrorSpace := default true (raw_reserveErrorSpace r);
     autocomplete := raw_autocomplete r |}.

(* ================================================================== *)
(** ** Computed values *)
(* ================================================================== *)

Definition helpTextId (p : Props) : string := id p ++ "-help".
Definition errorTextId (p : Props) : string := id p ++ "-error".
Definition labelId (p : Props) : string := id p ++ "-label".

Definition isInvalid (p : Props) : bool := JS.truthy (errorMessage p).

(** The slots object of [useSlots()]: only the presence of [helptext] is
    read. *)
Record Slots : Type := mkSlots {
  helptext : bool
}.

(** The [ids] array of [describedBy], after [filter(Boolean)]. *)
Definition ids (p : Props) (slots : Slots) : list string :=
  JS.filter_Boolean
    [ ariaDescribedby p;
      if helptext slots then Some (helpTextId p) else None;
      if isInvalid p then Some (errorTextId p) else None ].

Definition uniqueIds (p : Props) (slots : Slots) : list string :=
  filter (fun i => negb (String.eqb i (labelId p)))
         (JS.Array_from (JS.new_Set (ids p slots))).

Definition describedBy (p : Props) (slots : Slots) : option string :=
  match length (uniqueIds p slots) with
  | 0 => None
  | S _ => Some (JS.join " " (uniqueIds p slots))
  end.

(* ================================================================== *)
(** ** The injected form context and the effects of the component *)
(* ================================================================== *)

(** The object provided under [AllyFormKey]. Its two methods return nothing
    and act on the state [A] of the ancestor form. *)
Record AllyFormContext (A : Type) : Type := mkAllyFormContext {
  updateErrorState : string -> string -> A -> A;
  clearErrorState : string -> A -> A
}.

(** What [emit] can send: the two events of [defineEmits]. *)
Inductive Emitted : Type :=
| Emit_update_modelValue (newValue : ModelValue)
| Emit_blur.

(** Everything outside the component that its code acts upon: the state of
    the ancestor form and the events received by the parent, oldest first. *)
Record World (A : Type) : Type := mkWorld {
  form : A;
  emitted : list Emitted
}.

Module Eff.

(** A state monad over the [World]. *)
Definition t (A X : Type) : Type := World A -> X * World A.

Definition ret {A X : Type} (x : X) : t A X := fun w => (x, w).

Definition bind {A X Y : Type} (m : t A X) (k : X -> t A Y) : t A Y :=
  fun w => let (x, w') := m w in k x w'.

Definition exec {A X : Type} (m : t A X) (w : World A) : World A :=
  snd (m w).

(** A call of a method of the form context. *)
Definition call {A : Type} (method : A -> A) : t A unit :=
  fun w => (tt, {| form := method (form w); emitted := emitted w |}).

(** [emit(...)]. *)
Definition emit {A : Type} (e : Emitted) : t A unit :=
  fun w => (tt, {| form := form w; emitted := emitted w ++ [e] |}).

(** [if (c) { body }] *)
Definition when {A : Type} (c : bool) (body : t A unit) : t A unit :=
  if c then body else ret tt.

End Eff.

Declare Scope eff_scope.
Delimit Scope eff_scope with eff.
Notation "m1 ;; m2" := (Eff.bind m1 (fun _ => m2))
  (at level 61, right associativity) : eff_scope.

(* ================================================================== *)
(** ** The component instance and its events *)
(* ================================================================== *)

Record Instance : Type := mkInstance {
  raw : RawProps;
  slots : Slots;
  isUnmounted : bool
}.

Definition props (i : Instance) : Props := withDefaults (raw i).

(** What can happen to a mounted instance. The parent changes one prop in
    a render, or several at once ([Set_props]: all the props it now passes,
    and whether it binds [id] before [errorMessage]), or starts or stops
    filling the [helptext] slot; something assigns to [value]; the instance
    is unmounted. *)
Inductive Event : Type :=
| Set_id (v : string)
| Set_label (v : string)
| Set_modelValue (v : ModelValue)
| Set_required (v : option bool)
| Set_ariaDescribedby (v : option string)
| Set_errorMessage (v : option string)
| Set_reserveErrorSpace (v : option bool)
| Set_autocomplete (v : option string)
| Set_props (r : RawProps) (id_first : bool)
| Set_helptext_slot (present : bool)
| Assign_value (newValue : ModelValue)
| Unmount.

Definition set_prop (e : Event) (r : RawProps) : RawProps :=
  match e with
  | Set_id v =>
      mkRawProps v (raw_label r) (raw_modelValue r) (raw_required r)
        (raw_ariaDescribedby r) (raw_errorMessage r)
        (raw_reserveErrorSpace r) (raw_autocomplete r)
  | Set_label v =>
      mkRawProps (raw_id r) v (raw_modelValue r) (raw_required r)
        (raw_ariaDescribedby r) (raw_errorMessage r)
        (raw_reserveErrorSpace r) (raw_autocomplete r)
  | Set_modelValue v =>
      mkRawProps (raw_id r) (raw_label r) v (raw_required r)
        (raw_ariaDescribedby r) (raw_errorMessage r)
        (raw_reserveErrorSpace r) (raw_autocomplete r)
  | Set_required v =>
      mkRawProps (raw_id r) (raw_label r) (raw_modelValue r) v
        (raw_ariaDescribedby r) (raw_errorMessage r)
        (raw_reserveErrorSpace r) (raw_autocomplete r)
  | Set_ariaDescribedby v =>
      mkRawProps (raw_id r) (raw_label r) (raw_modelValue r) (raw_required r)
        v (raw_errorMessage r)
        (raw_reserveErrorSpace r) (raw_autocomplete r)
  | Set_errorMessage v =>
      mkRawProps (raw_id r) (raw_label r) (raw_modelValue r) (raw_required r)
        (raw_ariaDescribedby r) v
        (raw_reserveErrorSpace r) (raw_autocomplete r)
  | Set_reserveErrorSpace v =>
      mkRawProps (raw_id r) (raw_label r) (raw_modelValue r) (raw_required r)
        (raw_ariaDescribedby r) (raw_errorMessage r)
        v (raw_autocomplete r)
  | Set_autocomplete v =>
      mkRawProps (raw_id r) (raw_label r) (raw_modelValue r) (raw_required r)
        (raw_ariaDescribedby r) (raw_errorMessage r)
        (raw_reserveErrorSpace r) v
  | Set_props r' _ => r'
  | Set_helptext_slot _ | Assign_value _ | Unmount => r
  end.

(** Whether the watcher on [id] is queued before the watcher on
    [errorMessage]: the order in which the render sets the two props. It
    matters only when both change. *)
Definition id_first_of (e : Event) : bool :=
  match e with
  | Set_props _ id_first => id_first
  | _ => false
  end.

Definition set_slot (e : Event) (s : Slots) : Slots :=
  match e with
  | Set_helptext_slot present => {| helptext := present |}
  | _ => s
  end.

Section Component.

Variable A : Type.

(** [const allyForm = inject(AllyFormKey, null)] *)
Variable allyForm : option (AllyFormContext A).

(** [if (allyForm) { allyForm.method(...) }] *)
Definition if_allyForm (method : AllyFormContext A -> A -> A) : Eff.t A unit :=
  match allyForm with
  | Some ctx => Eff.call (method ctx)
  | None => Eff.ret tt
  end.

(** The callback of the watcher on [props.errorMessage]. *)
Definition watch_errorMessage (props : Props)
    (newMessage : string) (oldMessage : option string) : Eff.t A unit :=
  if_allyForm (fun ctx => updateErrorState ctx (id props) (JS.or_else newMessage "")).

(** The callback of the watcher on [props.id]. *)
Definition watch_id (props : Props) (newId oldId : string) : Eff.t A unit :=
  ((match allyForm with
    | Some ctx =>
        Eff.when (JS.truthy oldId && JS.truthy (errorMessage props))
                 (Eff.call (clearErrorState ctx oldId))
    | None => Eff.ret tt
    end) ;;
   if_allyForm (fun ctx =>
     updateErrorState ctx newId (JS.or_else (errorMessage props) "")))%eff.

(** The hook registered with [onUnmounted]. *)
Definition onUnmounted (props : Props) : Eff.t A unit :=
  if_allyForm (fun ctx => clearErrorState ctx (id props)).

(** The writable computed [value]. *)
Definition value_get (props : Props) : ModelValue := modelValue props.

Definition value_set (newValue : ModelValue) : Eff.t A unit :=
  Eff.emit (Emit_update_modelValue newValue).

(** [setup()]: the only code that runs is the watcher on
    [props.errorMessage], because of [immediate: true]; its old value is
    [undefined]. *)
Definition setup (r : RawProps) (s : Slots) : Eff.t A Instance :=
  let i := {| raw := r; slots := s; isUnmounted := false |} in
  (watch_errorMessage (props i) (errorMessage (props i)) None ;;
   Eff.ret i)%eff.

(** [watch(source, cb)] without [immediate]: when a render has taken the
    props from [old] to [new], [cb] runs if the value of the source has
    changed (strings are compared by content), with the new and the old
    value; inside the callbacks [props] is [new]. When both sources have
    changed both callbacks run, the one on [id] first if the render has set
    [id] first. *)
Definition flush_errorMessage (old new : Props) : Eff.t A unit :=
  Eff.when (negb (String.eqb (errorMessage new) (errorMessage old)))
    (watch_errorMessage new (errorMessage new) (Some (errorMessage old))).

Definition flush_id (old new : Props) : Eff.t A unit :=
  Eff.when (negb (String.eqb (id new) (id old)))
    (watch_id new (id new) (id old)).

Definition flush_watchers (id_first : bool) (old new : Props) : Eff.t A unit :=
  if id_first
  then (flush_id old new ;; flush_errorMessage old new)%eff
  else (flush_errorMessage old new ;; flush_id old new)%eff.

(** One event on an instance. Once the instance is unmounted its watchers
    are stopped and its [emit] does nothing. *)
Definition step (i : Instance) (e : Event) : Eff.t A Instance :=
  if isUnmounted i then Eff.ret i
  else
    match e with
    | Unmount =>
        (onUnmounted (props i) ;;
         Eff.ret {| raw := raw i; slots := slots i; isUnmounted := true |})%eff
    | Assign_value newValue =>
        (value_set newValue ;; Eff.ret i)%eff
    | _ =>
        let i' := {| raw := set_prop e (raw i);
                     slots := set_slot e (slots i);
                     isUnmounted := false |} in
        (flush_watchers (id_first_of e) (props i) (props i') ;; Eff.ret i')%eff
    end.

Fixpoint run (i : Instance) (es : list Event) : Eff.t A Instance :=
  match es with
  | [] => Eff.ret i
  | e :: rest => Eff.bind (step i e) (fun i' => run i' rest)
  end.

(** A whole life of the component: [setup], then the events. *)
Definition mount_and_run (r : RawProps) (s : Slots) (es : list Event)
  : Eff.t A Instance :=
  Eff.bind (setup r s) (fun i => run i es).

End Component.

Arguments if_allyForm {A} allyForm method.
Arguments watch_errorMessage {A} allyForm props newMessage oldMessage.
Arguments watch_id {A} allyForm props newId oldId.
Arguments onUnmounted {A} allyForm props.
Arguments value_set {A} newValue.
Arguments setup {A} allyForm r s.
Arguments flush_errorMessage {A} allyForm old new.
Arguments flush_id {A} allyForm old new.
Arguments flush_watchers {A} allyForm id_first old new.
Arguments step {A} allyForm i e.
Arguments run {A} allyForm i es.
Arguments mount_and_run {A} allyForm r s es.

(* ================================================================== *)
(** ** The template *)
(* ================================================================== *)

(** The props handed to the [control] slot. *)
Record ControlSlotProps : Type := mkControlSlotProps {
  slot_id : string;
  slot_isInvalid : bool;
  slot_describedBy : option string;
  slot_labelId : string;
  slot_required : bool;
  slot_autocomplete : option string
}.

(** What the template renders: elements with their attributes, text, and
    the two slot outlets (their content belongs to the parent). The
    whitespace of the template is condensed: what is left of it is the
    space between the text of the label and the marker that follows. *)
#[warnings="-register-all"]
Inductive VNode : Type :=
| Element (tag : string) (attrs : list (string * string)) (children : list VNode)
| Text (text : string)
| Slot_control (sp : ControlSlotProps)
| Slot_helptext.

(** The children kept by a [v-if]. *)
Definition v_if (c : bool) (n : VNode) : list VNode :=
  if c then [n] else [].

(** A static class followed by the classes of a [:class] object whose
    condition holds. *)
Definition class_attr (static : string) (dynamic : list (string * bool))
  : string * string :=
  ("class",
   JS.join " " (static :: map fst (filter (fun c => snd c) dynamic))).

(** The tree of a render. [describedBy] is a computed: Vue caches it and
    evaluates it again when [id], [ariaDescribedby] or the validity has
    changed, not when the help slot appears or disappears, which it does
    not track. The value below is the one of an evaluation at the current
    slots: it is the value the [control] slot receives as long as the help
    slot is as it was at [setup]. *)
Definition render (i : Instance) : VNode :=
  let p := props i in
  Element "div"
    [class_attr "form-group" [("ally-has-error", isInvalid p)]]
    (v_if (JS.truthy (label p))
       (Element "label"
          [("id", labelId p); ("for", id p); ("class", "form-label")]
          (Text (label p ++ " ") ::
           v_if (required p)
             (Element "span"
                [("aria-hidden", "true"); ("class", "text-danger ms-1")]
                [Text "*"])))
     ++ [Element "div"
           [("class", "input-wrapper position-relative")]
           [Slot_control
              {| slot_id := id p;
                 slot_isInvalid := isInvalid p;
                 slot_describedBy := describedBy p (slots i);
                 slot_labelId := labelId p;
                 slot_required := required p;
                 slot_autocomplete := autocomplete p |}]]
     ++ v_if (helptext (slots i))
          (Element "small"
             [("id", helpTextId p); ("class", "form-text text-muted")]
             [Slot_helptext])
     ++ v_if (isInvalid p || reserveErrorSpace p)
          (Element "div"
             [("id", errorTextId p);
              class_attr "error-text"
                [("reserve-space", reserveErrorSpace p && negb (isInvalid p))]]
             [Text (errorMessage p)])).

(* ================================================================== *)
(** ** The calls an ancestor observes *)
(* ================================================================== *)

Inductive Call : Type :=
| Call_updateErrorState (fieldId message : string)
| Call_clearErrorState (fieldId : string).

(** The form context that does nothing but record the calls it receives,
    oldest first. *)
Definition recorder : AllyFormContext (list Call) :=
  {| updateErrorState := fun fieldId message log =>
       log ++ [Call_updateErrorState fieldId message];
     clearErrorState := fun fieldId log =>
       log ++ [Call_clearErrorState fieldId] |}.

(** A fresh world: nothing called, nothing emitted. *)
Definition quiet : World (list Call) := {| form := []; emitted := [] |}.

(** The calls made by a computation that runs against the recorder. *)
Definition calls_of {X : Type} (m : Eff.t (list Call) X) : list Call :=
  form (Eff.exec m quiet).

(** The effect of one call, and of a sequence of calls, on the state of an
    arbitrary form context. *)
Definition apply_call {A : Type} (ctx : AllyFormContext A) (a : A) (c : Call) : A :=
  match c with
  | Call_updateErrorState fieldId message => updateErrorState ctx fieldId message a
  | Call_clearErrorState fieldId => clearErrorState ctx fieldId a
  end.

(* ================================================================== *)
(** ** Stating the properties of [describedBy] *)
(* ================================================================== *)

(** The value of [aria-describedby] is read by the browser as a list of
    tokens separated by ASCII whitespace: tab, line feed, form feed,
    carriage return and space. *)
Definition is_space (c : ascii) : bool :=
  let n := nat_of_ascii c in
  Nat.eqb n 9 || Nat.eqb n 10 || Nat.eqb n 12 || Nat.eqb n 13 || Nat.eqb n 32.

(** [split_tokens cur s]: the tokens of [s], where [cur] holds the
    characters of the token being read. *)
Fixpoint split_tokens (cur s : string) : list string :=
  match s with
  | EmptyString => if JS.truthy cur then [cur] else []
  | String c rest =>
      if is_space c
      then (if JS.truthy cur then cur :: split_tokens "" rest
            else split_tokens "" rest)
      else split_tokens (cur ++ String c "") rest
  end.

Definition tokens (s : string) : list string := split_tokens "" s.

(** The tokens of an attribute that may be absent. *)
Definition tokens_of (attr : option string) : list string :=
  match attr with
  | Some s => tokens s
  | None => []
  end.

(** A string without whitespace: at most one token. *)
Fixpoint no_space (s : string) : bool :=
  match s with
  | EmptyString => true
  | String c rest => negb (is_space c) && no_space rest
  end.

(** A token: a string that is not empty and holds no whitespace. *)
Definition is_token (t : string) : Prop :=
  JS.truthy t = true /\ no_space t = true.

(** The description of [describedBy] in the specification: the list
    [[ariaDescribedbyExtra, helpTextId if help content is present,
    errorTextId if invalid]], deduplicated in order, without [labelId],
    joined with spaces. *)
Definition spec_entries (p : Props) (slots : Slots) : list string :=
  (match ariaDescribedby p with Some extra => [extra] | None => [] end)
  ++ (if helptext slots then [helpTextId p] else [])
  ++ (if String.eqb (errorMessage p) "" then [] else [errorTextId p]).

(** Order-preserving deduplication: an entry is kept when it has not been
    seen before. *)
Fixpoint keep_first (seen l : list string) : list string :=
  match l with
  | [] => []
  | x :: rest =>
      if existsb (String.eqb x) seen then keep_first seen rest
      else x :: keep_first (x :: seen) rest
  end.

Fixpoint exclude (x : string) (l : list string) : list string :=
  match l with
  | [] => []
  | y :: rest => if String.eqb y x then exclude x rest else y :: exclude x rest
  end.

(** The description read to the letter: always the join, of all the
    entries. *)
Definition spec_describedBy (p : Props) (slots : Slots) : string :=
  String.concat " " (exclude (labelId p) (keep_first [] (spec_entries p slots))).

(** The tokens of the specification: the entries that are not empty,
    deduplicated in order, without [labelId]. *)
Definition spec_tokens (p : Props) (slots : Slots) : list string :=
  exclude (labelId p)
    (keep_first [] (filter JS.truthy (spec_entries p slots))).

(** An attribute made of tokens: absent when there is none. *)
Definition attr_of_tokens (l : list string) : option string :=
  match l with
  | [] => None
  | _ :: _ => Some (String.concat " " l)
  end.

(* ================================================================== *)
(** ** One event and a run of events, seen from outside *)
(* ================================================================== *)

(** The instance, the calls and the emitted events that [step] produces do
    not depend on the world it runs in. They are read off [step] itself:
    the instance and the events from a run without form context, the calls
    from a run against the recorder. *)
Definition nowhere : World unit := {| form := tt; emitted := [] |}.

Definition next (i : Instance) (e : Event) : Instance :=
  fst (step None i e nowhere).

Definition emits_of (i : Instance) (e : Event) : list Emitted :=
  emitted (Eff.exec (step None i e) nowhere).

Definition step_calls (i : Instance) (e : Event) : list Call :=
  calls_of (step (Some recorder) i e).

Definition replay {A : Type} (ctx : AllyFormContext A) (cs : list Call) (a : A) : A :=
  fold_left (apply_call ctx) cs a.

(** The same for a run of events: the instance it ends with, its calls and
    its emitted events. *)
Fixpoint after (i : Instance) (es : list Event) : Instance :=
  match es with
  | [] => i
  | e :: rest => after (next i e) rest
  end.

Fixpoint run_calls (i : Instance) (es : list Event) : list Call :=
  match es with
  | [] => []
  | e :: rest => step_calls i e ++ run_calls (next i e) rest
  end.

Fixpoint run_emits (i : Instance) (es : list Event) : list Emitted :=
  match es with
  | [] => []
  | e :: rest => emits_of i e ++ run_emits (next i e) rest
  end.

(* ================================================================== *)
(** ** Stating the properties of the protocol and of the value *)
(* ================================================================== *)

(** Each message of [ms] differs from the one before it, the first one
    from [cur]: a sequence of changes of [errorMessage] (after
    [withDefaults]: an [errorMessage] left out is the empty message). *)
Fixpoint successive_changes (cur : string) (ms : list (option string)) : Prop :=
  match ms with
  | [] => True
  | m :: rest => default "" m <> cur /\ successive_changes (default "" m) rest
  end.

(** The [modelValue] the parent has passed last, and the values something
    has tried to assign, along a sequence of events. *)
Definition passed_modelValue (cur : ModelValue) (es : list Event) : ModelValue :=
  fold_left (fun cur e =>
               match e with
               | Set_modelValue v => v
               | Set_props r _ => raw_modelValue r
               | _ => cur
               end)
            es cur.

Definition assigned_values (es : list Event) : list ModelValue :=
  flat_map (fun e => match e with Assign_value v => [v] | _ => [] end) es.

(* ================================================================== *)
(** ** Concrete fields *)
(* ================================================================== *)

(** A field with the given [id], [ariaDescribedby] and [errorMessage], for
    concrete runs. *)
Definition field (i : string) (extra : option string) (message : string)
  : Props :=
  {| id := i;
     label := "Name";
     modelValue := MString "";
     required := false;
     ariaDescribedby := extra;
     errorMessage := message;
     reserveErrorSpace := true;
     autocomplete := None |}.

Definition with_help : Slots := {| helptext := true |}.
Definition without_help : Slots := {| helptext := false |}.

(** A mounted field, for concrete runs. *)
Definition mounted (i : string) (message : option string) : Instance :=
  {| raw := {| raw_id := i;
               raw_label := "Name";
               raw_modelValue := MString "";
               raw_required := None;
               raw_ariaDescribedby := None;
               raw_errorMessage := message;
               raw_reserveErrorSpace := None;
               raw_autocomplete := None |};
     slots := without_help;
     isUnmounted := false |}.

(* ================================================================== *)
(** ** Reading the rendered tree *)
(* ================================================================== *)

(** The value of an attribute: the first pair with that name. *)
Fixpoint attr (name : string) (attrs : list (string * string)) : option string :=
  match attrs with
  | [] => None
  | (k, v) :: rest => if String.eqb k name then Some v else attr name rest
  end.

(** A node and all the nodes below it, in document order. *)
Fixpoint descendants (n : VNode) : list VNode :=
  n :: match n with
       | Element _ _ children => flat_map descendants children
       | _ => []
       end.

Definition node_id (n : VNode) : list string :=
  match n with
  | Element _ attrs _ =>
      match attr "id" attrs with Some x => [x] | None => [] end
  | _ => []
  end.

Definition node_tag (n : VNode) : list string :=
  match n with
  | Element tag _ _ => [tag]
  | _ => []
  end.

Definition node_control_slot (n : VNode) : list ControlSlotProps :=
  match n with
  | Slot_control sp => [sp]
  | _ => []
  end.

(** The ids and the tags of the elements of a tree, and the props of its
    [control] slot outlets, in document order. *)
Definition element_ids (n : VNode) : list string :=
  flat_map node_id (descendants n).

Definition tags (n : VNode) : list string :=
  flat_map node_tag (descendants n).

Definition control_slots (n : VNode) : list ControlSlotProps :=
  flat_map node_control_slot (descendants n).

(* ================================================================== *)
(** ** Reading a log of calls *)
(* ================================================================== *)

(** An event after which a mounted field has nothing to tell the form: it
    is not the unmount, and it leaves [id] and [errorMessage] as they are. *)
Definition silent (i : Instance) (e : Event) : Prop :=
  match e with
  | Unmount => False
  | Set_id v => v = id (props i)
  | Set_errorMessage m => default "" m = errorMessage (props i)
  | Set_props r _ =>
      raw_id r = id (props i) /\
      default "" (raw_errorMessage r) = errorMessage (props i)
  | _ => True
  end.

(** The calls of a render that takes the props of a mounted field from
    [old] to [new]: those of the watcher on [errorMessage], those of the
    watcher on [id], and both in the order of the render. *)
Definition errorMessage_calls (old new : Props) : list Call :=
  if String.eqb (errorMessage new) (errorMessage old) then []
  else [Call_updateErrorState (id new) (errorMessage new)].

Definition id_calls (old new : Props) : list Call :=
  if String.eqb (id new) (id old) then []
  else (if JS.truthy (id old) && JS.truthy (errorMessage new)
        then [Call_clearErrorState (id old)] else [])
       ++ [Call_updateErrorState (id new) (errorMessage new)].

Definition render_calls (id_first : bool) (old new : Props) : list Call :=
  if id_first
  then id_calls old new ++ errorMessage_calls old new
  else errorMessage_calls old new ++ id_calls old new.

(** The field ids that stand with an error after a log of calls:
    [updateErrorState] with a message that is not empty puts the id in
    front, with the empty message it takes the id out, and so does
    [clearErrorState]. *)
Definition without (x : string) (errs : list string) : list string :=
  filter (fun y => negb (String.eqb y x)) errs.

Definition settle (errs : list string) (c : Call) : list string :=
  match c with
  | Call_updateErrorState x m =>
      if JS.truthy m then x :: without x errs else without x errs
  | Call_clearErrorState x => without x errs
  end.

Definition outstanding (log : list Call) : list string :=
  fold_left settle log [].

(** The ids that should stand with an error, given the instance: its id
    while it is mounted and invalid, none otherwise. *)
Definition standing (i : Instance) : list string :=
  if isUnmounted i then []
  else if isInvalid (props i) then [id (props i)] else [].

(** A render that changes [id] and, at once, empties an [errorMessage] that
    was not empty. *)
Definition drops_error_with_id (old new : Props) : Prop :=
  id new <> id old /\ errorMessage old <> "" /\ errorMessage new = "".

(** Along the events [es] from the instance [i], the field never takes the
    empty id and no render is of the kind above. *)
Fixpoint tracked (i : Instance) (es : list Event) : Prop :=
  match es with
  | [] => True
  | e :: rest =>
      id (props (next i e)) <> "" /\
      ~ drops_error_with_id (props i) (props (next i e)) /\
      tracked (next i e) rest
  end.

(** Every [clearErrorState] of the log is for an id that is in [known] or
    that an earlier [updateErrorState] of the log has named. *)
Fixpoint clears_known (known : list string) (log : list Call) : Prop :=
  match log with
  | [] => True
  | Call_updateErrorState x _ :: rest => clears_known (x :: known) rest
  | Call_clearErrorState x :: rest => In x known /\ clears_known known rest
  end.

(** A field to which the parent passes the required props only. *)
Definition bare (i l : string) (v : ModelValue) : RawProps :=
  {| raw_id := i;
     raw_label := l;
     raw_modelValue := v;
     raw_required := None;
     raw_ariaDescribedby := None;
     raw_errorMessage := None;
     raw_reserveErrorSpace := None;
     raw_autocomplete := None |}.

(* ================================================================== *)
(** ** Tactics *)
(* ================================================================== *)

(** Unfolding [step] down to the world, and the case analysis that follows
    its tests. *)
Ltac unfold_step :=
  unfold next, emits_of, step_calls, calls_of, replay, Eff.exec, step,
    flush_watchers, flush_id, flush_errorMessage, onUnmounted, watch_id,
    watch_errorMessage, value_set, if_allyForm, Eff.when, Eff.bind, Eff.ret,
    Eff.call, Eff.emit.

Ltac split_step i e :=
  destruct (isUnmounted i);
  [|destruct e; cbn [id_first_of];
    try match goal with |- context [if ?b then _ else _] =>
          is_var b; destruct b end];
  simpl;
  repeat match goal with
         | |- context [String.eqb ?a ?b] => destruct (String.eqb a b); simpl
         | |- context [JS.truthy ?a] => destruct (JS.truthy a); simpl
         end.

(** Running [settle] over a short log, with the equations at hand. *)
Ltac settle_all :=
  repeat (cbn [andb app fold_left settle]; unfold without;
          cbn [filter negb];
          repeat match goal with
                 | H : _ = _ |- _ => rewrite H
                 end;
          rewrite ?String.eqb_refl);
  try reflexivity.

(* ================================================================== *)
(** ** Facts about strings and the JavaScript primitives *)
(* ================================================================== *)

Lemma append_nil_r (s : string) : (s ++ "")%string = s.
Proof. induction s as [|c s IH]; simpl; [reflexivity | now rewrite IH]. Qed.

Lemma append_assoc (s t u : string) :
  ((s ++ t) ++ u)%string = (s ++ (t ++ u))%string.
Proof. induction s as [|c s IH]; simpl; [reflexivity | now rewrite IH]. Qed.

Lemma append_inv_head (s t u : string) :
  (s ++ t)%string = (s ++ u)%string -> t = u.
Proof.
  induction s as [|c s IH]; simpl; intros H; [exact H|].
  injection H as H. now apply IH.
Qed.

Lemma truthy_iff (s : string) : JS.truthy s = true <-> s <> "".
Proof. destruct s; simpl; split; congruence. Qed.

Lemma truthy_eqb (s : string) : JS.truthy s = negb (String.eqb s "").
Proof. now destruct s. Qed.

Lemma truthy_append_r (s t : string) :
  JS.truthy t = true -> JS.truthy (s ++ t)%string = true.
Proof. destruct s; simpl; auto. Qed.

(** [s || ''] is [s] itself: the fallback only replaces the empty string,
    by the empty string. *)
Lemma or_else_empty (s : string) : JS.or_else s "" = s.
Proof. now destruct s. Qed.

Lemma join_concat (sep : string) (l : list string) :
  JS.join sep l = String.concat sep l.
Proof.
  induction l as [|x l IH]; [reflexivity|].
  destruct l as [|y l]; [reflexivity|].
  change (JS.join sep (x :: y :: l)) with (x ++ sep ++ JS.join sep (y :: l))%string.
  now rewrite IH.
Qed.

Lemma no_space_append (s t : string) :
  no_space (s ++ t)%string = no_space s && no_space t.
Proof.
  induction s as [|c s IH]; simpl; [reflexivity|].
  now rewrite IH, andb_assoc.
Qed.

(** *** The set built by [new Set(arr)] *)

Lemma Set_has_In (s : list string) (x : string) :
  JS.Set_has s x = true <-> In x s.
Proof.
  unfold JS.Set_has. rewrite existsb_exists. split.
  - intros [y [Hy Heq]]. apply String.eqb_eq in Heq. now subst.
  - intros H. exists x. split; [exact H | apply String.eqb_refl].
Qed.

Lemma Set_add_In (s : list string) (x y : string) :
  In y (JS.Set_add s x) <-> In y s \/ y = x.
Proof.
  unfold JS.Set_add. destruct (JS.Set_has s x) eqn:E.
  - apply Set_has_In in E. split; [auto | intros [H | ->]; assumption].
  - rewrite in_app_iff. simpl. intuition congruence.
Qed.

Lemma Set_add_NoDup (s : list string) (x : string) :
  NoDup s -> NoDup (JS.Set_add s x).
Proof.
  intros H. unfold JS.Set_add. destruct (JS.Set_has s x) eqn:E; [exact H|].
  assert (Hx : ~ In x s).
  { intros Hin. apply Set_has_In in Hin. congruence. }
  clear E. induction H as [|y s Hy Hs IH]; simpl.
  - constructor; [intros [] | constructor].
  - constructor.
    + rewrite in_app_iff. simpl in *. intuition congruence.
    + apply IH. simpl in Hx. tauto.
Qed.

Lemma fold_Set_add_In (arr s : list string) (y : string) :
  In y (fold_left JS.Set_add arr s) <-> In y s \/ In y arr.
Proof.
  revert s. induction arr as [|x arr IH]; intros s; simpl.
  - tauto.
  - rewrite IH, Set_add_In. intuition congruence.
Qed.

Lemma fold_Set_add_NoDup (arr s : list string) :
  NoDup s -> NoDup (fold_left JS.Set_add arr s).
Proof.
  revert s. induction arr as [|x arr IH]; intros s H; simpl; [exact H|].
  apply IH. now apply Set_add_NoDup.
Qed.

Lemma new_Set_In (arr : list string) (y : string) :
  In y (JS.new_Set arr) <-> In y arr.
Proof. unfold JS.new_Set. rewrite fold_Set_add_In. simpl. tauto. Qed.

Lemma new_Set_NoDup (arr : list string) : NoDup (JS.new_Set arr).
Proof. apply fold_Set_add_NoDup. constructor. Qed.

(** The set in insertion order is the array with only the first occurrence
    of each element kept. *)
Lemma fold_Set_add_keep_first (arr s seen : list string) :
  (forall x, In x s <-> In x seen) ->
  fold_left JS.Set_add arr s = s ++ keep_first seen arr.
Proof.
  revert s seen. induction arr as [|x arr IH]; intros s seen Hs; simpl.
  - now rewrite app_nil_r.
  - unfold JS.Set_add at 2.
    destruct (JS.Set_has s x) eqn:E.
    + assert (E' : existsb (String.eqb x) seen = true).
      { apply Set_has_In, Hs in E. now apply Set_has_In. }
      rewrite E'. now apply IH.
    + assert (E' : existsb (String.eqb x) seen = false).
      { apply not_true_is_false. intros H. apply Set_has_In, Hs, Set_has_In in H.
        congruence. }
      rewrite E'. rewrite (IH (s ++ [x]) (x :: seen)).
      * now rewrite <- app_assoc.
      * intros y. rewrite in_app_iff. simpl. rewrite Hs. intuition congruence.
Qed.

Lemma new_Set_keep_first (arr : list string) :
  JS.new_Set arr = keep_first [] arr.
Proof.
  unfold JS.new_Set. rewrite (@fold_Set_add_keep_first arr [] []); [reflexivity|].
  tauto.
Qed.

Lemma exclude_filter (x : string) (l : list string) :
  filter (fun i => negb (String.eqb i x)) l = exclude x l.
Proof.
  induction l as [|y l IH]; simpl; [reflexivity|].
  destruct (String.eqb y x); simpl; now rewrite IH.
Qed.

(** *** Tokens of a joined array *)

Lemma split_tokens_word (t cur rest : string) :
  no_space t = true ->
  split_tokens cur (t ++ rest) = split_tokens (cur ++ t) rest.
Proof.
  revert cur. induction t as [|c t IH]; intros cur H; simpl.
  - now rewrite append_nil_r.
  - simpl in H. apply andb_true_iff in H as [Hc Ht].
    apply negb_true_iff in Hc. rewrite Hc.
    rewrite (IH _ Ht), append_assoc. reflexivity.
Qed.

Lemma split_tokens_space (cur rest : string) :
  split_tokens cur (String " " rest) =
  if JS.truthy cur then cur :: split_tokens "" rest else split_tokens "" rest.
Proof. reflexivity. Qed.

Lemma tokens_join (l : list string) :
  Forall is_token l -> tokens (JS.join " " l) = l.
Proof.
  unfold tokens. induction 1 as [|x l [Hx Hs] Hl IH]; [reflexivity|].
  destruct l as [|y l].
  - simpl. rewrite <- (append_nil_r x) at 1.
    rewrite (split_tokens_word _ "" "" Hs). simpl. now rewrite Hx.
  - change (JS.join " " (x :: y :: l))
      with (x ++ String " " (JS.join " " (y :: l)))%string.
    rewrite (split_tokens_word _ "" _ Hs), split_tokens_space.
    change ("" ++ x)%string with x. now rewrite Hx, IH.
Qed.

(* ================================================================== *)
(** ** Properties of [describedBy] *)
(* ================================================================== *)

Section DescribedBy.

Variable p : Props.
Variable slots : Slots.

(** The candidates that pass [filter(Boolean)] are the entries of the
    specification that are not empty. *)
Lemma ids_spec_entries : ids p slots = filter JS.truthy (spec_entries p slots).
Proof.
  unfold ids, spec_entries, isInvalid, helpTextId, errorTextId.
  rewrite (truthy_eqb (errorMessage p)).
  destruct (ariaDescribedby p) as [extra|], (helptext slots),
    (String.eqb (errorMessage p) ""); simpl;
    rewrite ?truthy_append_r by reflexivity;
    try destruct (JS.truthy extra); reflexivity.
Qed.

Lemma uniqueIds_spec_tokens : uniqueIds p slots = spec_tokens p slots.
Proof.
  unfold uniqueIds, spec_tokens, JS.Array_from.
  now rewrite exclude_filter, new_Set_keep_first, ids_spec_entries.
Qed.

Lemma describedBy_attr_of_tokens :
  describedBy p slots = attr_of_tokens (uniqueIds p slots).
Proof.
  unfold describedBy, attr_of_tokens. rewrite join_concat.
  now destruct (uniqueIds p slots).
Qed.

(** A candidate is one of the three entries, and is not empty. *)
Lemma ids_In (t : string) :
  In t (ids p slots) <->
  JS.truthy t = true /\
  (ariaDescribedby p = Some t \/
   (helptext slots = true /\ t = helpTextId p) \/
   (isInvalid p = true /\ t = errorTextId p)).
Proof.
  rewrite ids_spec_entries, filter_In. unfold spec_entries, isInvalid.
  rewrite !in_app_iff, (truthy_eqb (errorMessage p)).
  destruct (ariaDescribedby p) as [extra|], (helptext slots),
    (String.eqb (errorMessage p) ""); simpl;
    intuition (try discriminate; try congruence).
Qed.

Lemma uniqueIds_In (t : string) :
  In t (uniqueIds p slots) <-> In t (ids p slots) /\ t <> labelId p.
Proof.
  unfold uniqueIds, JS.Array_from.
  rewrite filter_In, new_Set_In, negb_true_iff, String.eqb_neq. tauto.
Qed.

(** Whatever the inputs, the array that is joined holds no element twice
    and does not hold [labelId]. *)
Lemma uniqueIds_NoDup : NoDup (uniqueIds p slots).
Proof. apply NoDup_filter, new_Set_NoDup. Qed.

Lemma uniqueIds_not_labelId : ~ In (labelId p) (uniqueIds p slots).
Proof. rewrite uniqueIds_In. tauto. Qed.

(** The help and error ids never equal the label id. *)
Lemma helpTextId_not_labelId : helpTextId p <> labelId p.
Proof.
  unfold helpTextId, labelId. intros H. apply append_inv_head in H. discriminate.
Qed.

Lemma errorTextId_not_labelId : errorTextId p <> labelId p.
Proof.
  unfold errorTextId, labelId. intros H. apply append_inv_head in H. discriminate.
Qed.

(** When [id] and [ariaDescribedby] hold no whitespace, each element of
    the joined array is one token. *)
Lemma uniqueIds_tokens :
  no_space (id p) = true ->
  (forall extra, ariaDescribedby p = Some extra -> no_space extra = true) ->
  Forall is_token (uniqueIds p slots).
Proof.
  intros Hid Hextra. apply Forall_forall. intros t Ht.
  apply uniqueIds_In in Ht as [Ht _]. apply ids_In in Ht as [Hne Ht].
  split; [exact Hne|].
  destruct Ht as [Ht | [[_ ->] | [_ ->]]].
  - now apply Hextra.
  - unfold helpTextId. now rewrite no_space_append, Hid.
  - unfold errorTextId. now rewrite no_space_append, Hid.
Qed.

Lemma tokens_describedBy :
  no_space (id p) = true ->
  (forall extra, ariaDescribedby p = Some extra -> no_space extra = true) ->
  tokens_of (describedBy p slots) = uniqueIds p slots.
Proof.
  intros Hid Hextra.
  pose proof (tokens_join (uniqueIds_tokens Hid Hextra)) as H.
  unfold describedBy.
  destruct (uniqueIds p slots) as [|t l]; [reflexivity | exact H].
Qed.

(** The array that is joined is empty exactly when every candidate is the
    label id. *)
Lemma uniqueIds_nil_iff :
  uniqueIds p slots = [] <-> (forall t, In t (ids p slots) -> t = labelId p).
Proof.
  split.
  - intros E t Ht. destruct (string_dec t (labelId p)) as [|Hne]; [assumption|].
    assert (H : In t (uniqueIds p slots)) by (apply uniqueIds_In; auto).
    rewrite E in H. contradiction.
  - intros H. destruct (uniqueIds p slots) as [|t l] eqn:E; [reflexivity|].
    assert (Ht : In t (uniqueIds p slots)) by (rewrite E; now left).
    apply uniqueIds_In in Ht as [Ht Hne]. elim Hne. now apply H.
Qed.

(** In terms of the inputs: no help content, no error, and an
    [ariaDescribedby] that is absent, empty or the label id. *)
Lemma uniqueIds_nil_inputs :
  uniqueIds p slots = [] <->
  helptext slots = false /\ errorMessage p = "" /\
  (ariaDescribedby p = None \/ ariaDescribedby p = Some "" \/
   ariaDescribedby p = Some (labelId p)).
Proof.
  rewrite uniqueIds_nil_iff. split.
  - intros H.
    destruct (helptext slots) eqn:Eh.
    { elim helpTextId_not_labelId. apply H, ids_In.
      split; [now apply truthy_append_r | auto]. }
    destruct (isInvalid p) eqn:Ee.
    { elim errorTextId_not_labelId. apply H, ids_In.
      split; [now apply truthy_append_r | auto]. }
    split; [reflexivity|]. split.
    { unfold isInvalid in Ee. now destruct (errorMessage p). }
    destruct (ariaDescribedby p) as [[|c e]|] eqn:Ea; auto.
    right. right. f_equal. apply H, ids_In. auto.
  - intros (Eh & Ee & Ea) t Ht. apply ids_In in Ht as [Hne Ht].
    unfold isInvalid in Ht. rewrite Eh, Ee in Ht.
    destruct Ht as [Ht | [[Ht _] | [Ht _]]]; try discriminate.
    destruct Ea as [Ea | [Ea | Ea]]; rewrite Ea in Ht; try discriminate.
    + injection Ht as <-. discriminate.
    + now injection Ht.
Qed.

End DescribedBy.

(** C6: [describedBy] is meant never to hold the token [labelId] nor a
    token twice, as the comment above it says ("avoiding duplicate IDs and
    ignoring the label ID"). The code misses the case of an
    [ariaDescribedby] that is itself a list of ids: for the field [f] with
    help content, no error and [ariaDescribedby = "f-help f-label"],
    [describedBy] is ["f-help f-label f-help"], which holds the token
    [f-label], the label id, and the token [f-help] twice. *)
Lemma describedBy_breaks_on_list_of_ids :
  describedBy (field "f" (Some "f-help f-label") "") with_help
    = Some "f-help f-label f-help" /\
  In (labelId (field "f" (Some "f-help f-label") ""))
     (tokens_of (describedBy (field "f" (Some "f-help f-label") "") with_help)) /\
  ~ NoDup (tokens_of (describedBy (field "f" (Some "f-help f-label") "") with_help)).
Proof.
  split; [reflexivity|]. split.
  - vm_compute. auto.
  - vm_compute. intros H. inversion H as [|x l Hx Hl]; subst.
    apply Hx. simpl. auto.
Qed.

(** An [id] with whitespace has the same effect: the ids derived from it
    share their first token. *)
Example describedBy_tokens_id_with_space :
  tokens_of (describedBy (field "a b" None "required") with_help)
    = ["a"; "b-help"; "a"; "b-error"].
Proof. reflexivity. Qed.

(** Where the code does keep the promise: for every [id] and
    [ariaDescribedby] that hold no whitespace (each is a single token),
    whatever the help content and the error message, the tokens of
    [describedBy] are pairwise distinct and none of them is [labelId]; so
    an [ariaDescribedby] equal to [labelId] is left out. This is a
    sufficient condition, not a necessary one. *)
Theorem describedBy_tokens_distinct_without_labelId (p : Props) (slots : Slots) :
  no_space (id p) = true ->
  (forall extra, ariaDescribedby p = Some extra -> no_space extra = true) ->
  NoDup (tokens_of (describedBy p slots)) /\
  ~ In (labelId p) (tokens_of (describedBy p slots)).
Proof.
  intros Hid Hextra. rewrite (@tokens_describedBy p slots Hid Hextra).
  split; [apply uniqueIds_NoDup | apply uniqueIds_not_labelId].
Qed.

Lemma describedBy_tokens_distinct_without_labelId_witness :
  describedBy (field "f" (Some "f-label") "required") with_help
    = Some "f-help f-error" /\
  NoDup (tokens_of (describedBy (field "f" (Some "f-label") "required") with_help)) /\
  ~ In "f-label"
       (tokens_of (describedBy (field "f" (Some "f-label") "required") with_help)).
Proof.
  split; [reflexivity|].
  apply (@describedBy_tokens_distinct_without_labelId
           (field "f" (Some "f-label") "required") with_help).
  - reflexivity.
  - intros extra H. injection H as <-. reflexivity.
Defined.

(** C7, as stated, fails: with nothing to join, [describedBy] is not the
    join of the empty list (the empty string) but [undefined]. Here the
    field [f] has no [ariaDescribedby], no help content and no error. *)
Lemma describedBy_join_counterexample :
  spec_describedBy (field "f" None "") without_help = "" /\
  describedBy (field "f" None "") without_help = None /\
  describedBy (field "f" None "") without_help
    <> Some (spec_describedBy (field "f" None "") without_help).
Proof. repeat split; discriminate. Qed.

(** The same happens with an entry that is the empty string: it does not
    take part in the join. *)
Example describedBy_empty_extra :
  spec_describedBy (field "f" (Some "") "") with_help = " f-help" /\
  describedBy (field "f" (Some "") "") with_help = Some "f-help".
Proof. split; reflexivity. Qed.

(** C7, amended: [describedBy] is made of the entries of
    [[ariaDescribedbyExtra, helpTextId if help content is present,
    errorTextId if errorMessage is non-empty]] that are not empty,
    deduplicated in order, without [labelId]: their space-separated join
    when at least one is left, [undefined] when none is. With
    [ariaDescribedby = "ext1"], help content and an error on the field [f],
    it is ["ext1 f-help f-error"]. *)
Theorem describedBy_is_join_of_spec_tokens :
  (forall p slots, describedBy p slots = attr_of_tokens (spec_tokens p slots)) /\
  describedBy (field "f" (Some "ext1") "required") with_help
    = Some "ext1 f-help f-error".
Proof.
  split; [|reflexivity].
  intros p slots.
  now rewrite describedBy_attr_of_tokens, uniqueIds_spec_tokens.
Qed.

(** C10: when every candidate left by [filter(Boolean)] is the label id
    (in particular when there is no candidate: no [ariaDescribedby], no help
    content, no error), the array that would be joined is empty and
    [describedBy] is [undefined], not the empty string. *)
Theorem describedBy_undefined_when_no_token (p : Props) (slots : Slots) :
  (forall t, In t (ids p slots) -> t = labelId p) ->
  uniqueIds p slots = [] /\ describedBy p slots = None.
Proof.
  intros H. apply uniqueIds_nil_iff in H.
  split; [exact H|]. unfold describedBy. now rewrite H.
Qed.

Lemma describedBy_undefined_when_no_token_witness :
  ids (field "f" (Some "f-label") "") without_help = ["f-label"] /\
  uniqueIds (field "f" (Some "f-label") "") without_help = [] /\
  describedBy (field "f" (Some "f-label") "") without_help = None.
Proof.
  split; [reflexivity|].
  apply (@describedBy_undefined_when_no_token
           (field "f" (Some "f-label") "") without_help).
  intros t [<- | []]. reflexivity.
Defined.

(** [describedBy] is never the empty string, and it is [undefined] only
    when no token is left. *)
Lemma describedBy_None_iff (p : Props) (slots : Slots) :
  describedBy p slots = None <-> uniqueIds p slots = [].
Proof.
  unfold describedBy. destruct (uniqueIds p slots); simpl; split; congruence.
Qed.

Lemma describedBy_not_empty (p : Props) (slots : Slots) :
  describedBy p slots <> Some "".
Proof.
  unfold describedBy.
  destruct (uniqueIds p slots) as [|t l] eqn:E; simpl length; cbv iota;
    [discriminate|].
  assert (Ht : JS.truthy t = true).
  { assert (H : In t (uniqueIds p slots)) by (rewrite E; now left).
    apply uniqueIds_In in H as [H _]. now apply ids_In in H. }
  intros H. injection H as H.
  destruct t; [discriminate|]. destruct l; discriminate.
Qed.

(* ================================================================== *)
(** ** One event and a run of events, seen from outside: lemmas *)
(* ================================================================== *)

Section StepOutside.

Variable A : Type.
Variable ctx : AllyFormContext A.

Lemma step_with_form (i : Instance) (e : Event) (w : World A) :
  step (Some ctx) i e w =
  (next i e,
   {| form := replay ctx (step_calls i e) (form w);
      emitted := emitted w ++ emits_of i e |}).
Proof.
  destruct w as [a em]. unfold_step. split_step i e;
    rewrite ?app_nil_r; reflexivity.
Qed.

Lemma step_without_form (i : Instance) (e : Event) (w : World A) :
  step None i e w =
  (next i e, {| form := form w; emitted := emitted w ++ emits_of i e |}).
Proof.
  destruct w as [a em]. unfold_step. split_step i e;
    rewrite ?app_nil_r; reflexivity.
Qed.

End StepOutside.

Lemma replay_recorder (cs log : list Call) : replay recorder cs log = log ++ cs.
Proof.
  unfold replay. revert log. induction cs as [|c cs IH]; intros log.
  - simpl. now rewrite app_nil_r.
  - cbn [fold_left]. rewrite IH. destruct c; simpl; now rewrite <- app_assoc.
Qed.

Lemma replay_app {A : Type} (ctx : AllyFormContext A) (cs ds : list Call) (a : A) :
  replay ctx (cs ++ ds) a = replay ctx ds (replay ctx cs a).
Proof. apply fold_left_app. Qed.

Section RunOutside.

Variable A : Type.
Variable ctx : AllyFormContext A.

Lemma run_with_form (es : list Event) (i : Instance) (w : World A) :
  run (Some ctx) i es w =
  (after i es,
   {| form := replay ctx (run_calls i es) (form w);
      emitted := emitted w ++ run_emits i es |}).
Proof.
  revert i w. induction es as [|e es IH]; intros i w; simpl.
  - unfold Eff.ret. rewrite app_nil_r. now destruct w.
  - unfold Eff.bind. rewrite step_with_form, IH. simpl.
    now rewrite replay_app, app_assoc.
Qed.

Lemma run_without_form (es : list Event) (i : Instance) (w : World A) :
  run None i es w =
  (after i es, {| form := form w; emitted := emitted w ++ run_emits i es |}).
Proof.
  revert i w. induction es as [|e es IH]; intros i w; simpl.
  - unfold Eff.ret. rewrite app_nil_r. now destruct w.
  - unfold Eff.bind. rewrite step_without_form, IH. simpl.
    now rewrite app_assoc.
Qed.

End RunOutside.

(** Against the recorder, the calls of a run are appended to the log. *)
Lemma run_recorded (es : list Event) (i : Instance) (w : World (list Call)) :
  form (Eff.exec (run (Some recorder) i es) w) = form w ++ run_calls i es.
Proof.
  unfold Eff.exec. rewrite run_with_form. simpl. apply replay_recorder.
Qed.

Lemma step_recorded (e : Event) (i : Instance) (w : World (list Call)) :
  form (Eff.exec (step (Some recorder) i e) w) = form w ++ step_calls i e.
Proof.
  unfold Eff.exec. rewrite step_with_form. simpl. apply replay_recorder.
Qed.

(** An unmounted instance is inert. *)
Lemma unmounted_inert (i : Instance) (es : list Event) :
  isUnmounted i = true ->
  after i es = i /\ run_calls i es = [] /\ run_emits i es = [].
Proof.
  intros H. induction es as [|e es IH]; simpl; [auto|].
  assert (En : next i e = i) by (unfold_step; now rewrite H).
  assert (Ec : step_calls i e = []) by (unfold_step; now rewrite H).
  assert (Ee : emits_of i e = []) by (unfold_step; now rewrite H).
  rewrite En, Ec, Ee. exact IH.
Qed.

(* ================================================================== *)
(** ** The error-reporting protocol *)
(* ================================================================== *)

Lemma eqb_false_of_neq (a b : string) : a <> b -> String.eqb a b = false.
Proof. apply String.eqb_neq. Qed.

Lemma truthy_of_neq (s : string) : s <> "" -> JS.truthy s = true.
Proof. apply truthy_iff. Qed.

(** The calls of one change of [id]. *)
Lemma id_change_calls (i : Instance) (newId : string) :
  isUnmounted i = false ->
  newId <> id (props i) ->
  step_calls i (Set_id newId) =
  (if JS.truthy (id (props i)) && JS.truthy (errorMessage (props i))
   then [Call_clearErrorState (id (props i))] else [])
  ++ [Call_updateErrorState newId (errorMessage (props i))].
Proof.
  intros Hm Hid. unfold_step. rewrite Hm. unfold props in *. simpl in *.
  rewrite String.eqb_refl, (eqb_false_of_neq Hid), or_else_empty. simpl.
  now destruct (JS.truthy (raw_id (raw i))),
    (JS.truthy (default "" (raw_errorMessage (raw i)))).
Qed.

(** The calls of one change of [errorMessage]. *)
Lemma errorMessage_change_calls (i : Instance) (m : option string) :
  isUnmounted i = false ->
  default "" m <> errorMessage (props i) ->
  step_calls i (Set_errorMessage m) =
  [Call_updateErrorState (id (props i)) (default "" m)].
Proof.
  intros Hm Hne. unfold_step. rewrite Hm. unfold props in *. simpl in *.
  now rewrite String.eqb_refl, (eqb_false_of_neq Hne), or_else_empty.
Qed.

(** C1, as stated, fails when the old id is the empty string: the watcher
    skips [clearErrorState] for a falsy [oldId]. A field whose [id] goes
    from [""] to ["b"] while its error is ["required"] makes one call only,
    [updateErrorState("b", "required")]. *)
Lemma id_change_from_empty_id_counterexample :
  calls_of (step (Some recorder) (mounted "" (Some "required")) (Set_id "b"))
    = [Call_updateErrorState "b" "required"] /\
  calls_of (step (Some recorder) (mounted "" (Some "required")) (Set_id "b"))
    <> [Call_clearErrorState ""; Call_updateErrorState "b" "required"].
Proof. split; [reflexivity | discriminate]. Qed.

(** C1, amended: for every change of [id] from a non-empty [oldId] to
    [newId] while the current [errorMessage] is non-empty and a form context
    is present, the wrapper makes exactly two calls, in this order:
    [clearErrorState(oldId)], then [updateErrorState(newId, errorMessage)]. *)
Theorem id_change_with_error_clears_then_updates
    (i : Instance) (newId : string) (w : World (list Call)) :
  isUnmounted i = false ->
  id (props i) <> "" ->
  errorMessage (props i) <> "" ->
  newId <> id (props i) ->
  form (Eff.exec (step (Some recorder) i (Set_id newId)) w) =
  form w ++ [Call_clearErrorState (id (props i));
             Call_updateErrorState newId (errorMessage (props i))].
Proof.
  intros Hm Hold Hmsg Hnew.
  rewrite step_recorded, (@id_change_calls i newId Hm Hnew).
  now rewrite (truthy_of_neq Hold), (truthy_of_neq Hmsg).
Qed.

Lemma id_change_with_error_clears_then_updates_witness :
  form (Eff.exec (step (Some recorder) (mounted "a" (Some "required")) (Set_id "b"))
                 quiet) =
  [Call_clearErrorState "a"; Call_updateErrorState "b" "required"].
Proof.
  apply (@id_change_with_error_clears_then_updates
           (mounted "a" (Some "required")) "b" quiet);
    [reflexivity | discriminate | discriminate | discriminate].
Defined.

(** C2: with a form context present, [setup] makes exactly one call,
    [updateErrorState(id, errorMessage)] with the current props, be the
    message empty or not; and whatever happens to the field afterwards, this
    call is the first one the form receives. *)
Theorem mount_reports_error_state_once (r : RawProps) (s : Slots) :
  calls_of (setup (Some recorder) r s) =
    [Call_updateErrorState (id (withDefaults r)) (errorMessage (withDefaults r))] /\
  forall es, exists later,
    calls_of (mount_and_run (Some recorder) r s es) =
    Call_updateErrorState (id (withDefaults r)) (errorMessage (withDefaults r))
      :: later.
Proof.
  split.
  - unfold calls_of, Eff.exec, setup, watch_errorMessage, if_allyForm,
      Eff.bind, Eff.call, Eff.ret, props. simpl.
    now rewrite or_else_empty.
  - intros es. exists (run_calls (mkInstance r s false) es).
    unfold calls_of, Eff.exec, mount_and_run, setup, watch_errorMessage,
      if_allyForm, Eff.bind, Eff.call, Eff.ret, props. simpl.
    rewrite run_with_form. simpl. now rewrite replay_recorder, or_else_empty.
Qed.

(** A field that mounts without an error message reports the empty
    message. *)
Example mount_without_error :
  calls_of (setup (Some recorder) (raw (mounted "f" None)) without_help)
    = [Call_updateErrorState "f" ""].
Proof. reflexivity. Qed.

(** The calls of an unmount, and of whatever is attempted afterwards. *)
Lemma unmount_calls (i : Instance) (later : list Event) :
  isUnmounted i = false ->
  run_calls i (Unmount :: later) = [Call_clearErrorState (id (props i))].
Proof.
  intros Hm. simpl.
  assert (Ec : step_calls i Unmount = [Call_clearErrorState (id (props i))]).
  { unfold_step. now rewrite Hm. }
  assert (Eu : isUnmounted (next i Unmount) = true).
  { unfold_step. now rewrite Hm. }
  destruct (@unmounted_inert (next i Unmount) later Eu) as (_ & -> & _).
  now rewrite Ec.
Qed.

(** C3: when a mounted field with a form context and a non-empty error
    message under id [X] is unmounted, the form receives exactly one call,
    [clearErrorState(X)], and nothing after it, whatever is attempted on
    the field later. *)
Theorem unmount_clears_once
    (i : Instance) (later : list Event) (w : World (list Call)) :
  isUnmounted i = false ->
  errorMessage (props i) <> "" ->
  form (Eff.exec (run (Some recorder) i (Unmount :: later)) w) =
  form w ++ [Call_clearErrorState (id (props i))].
Proof.
  intros Hm _. now rewrite run_recorded, (@unmount_calls i later Hm).
Qed.

Lemma unmount_clears_once_witness :
  form (Eff.exec (run (Some recorder) (mounted "x" (Some "required"))
                      [Unmount; Set_errorMessage (Some "late"); Set_id "y"])
                 quiet) =
  [Call_clearErrorState "x"].
Proof.
  apply (@unmount_clears_once (mounted "x" (Some "required"))
           [Set_errorMessage (Some "late"); Set_id "y"] quiet);
    [reflexivity | discriminate].
Defined.

(** What a change of [errorMessage] leaves behind. *)
Lemma next_Set_errorMessage (i : Instance) (m : option string) :
  isUnmounted i = false ->
  isUnmounted (next i (Set_errorMessage m)) = false /\
  id (props (next i (Set_errorMessage m))) = id (props i) /\
  errorMessage (props (next i (Set_errorMessage m))) = default "" m.
Proof.
  intros Hm. unfold_step. rewrite Hm. simpl.
  destruct (negb _), (negb _); simpl; auto.
Qed.

Lemma errorMessage_changes_calls (ms : list (option string)) (i : Instance) :
  isUnmounted i = false ->
  successive_changes (errorMessage (props i)) ms ->
  run_calls i (map Set_errorMessage ms) =
  map (fun m => Call_updateErrorState (id (props i)) (default "" m)) ms.
Proof.
  revert i. induction ms as [|m ms IH]; intros i Hm Hch; [reflexivity|].
  destruct Hch as [Hne Hch]. cbn [map run_calls].
  destruct (@next_Set_errorMessage i m Hm) as (Hm' & Hid & Hmsg).
  rewrite (@errorMessage_change_calls i m Hm Hne). cbn [app]. f_equal.
  rewrite <- Hid. apply IH; [exact Hm' | now rewrite Hmsg].
Qed.

(** C4: for every sequence of [n] changes of [errorMessage] on a mounted
    field whose [id] stays the same, with a form context present, the form
    receives exactly [n] calls, all of them [updateErrorState], one per
    change and in the order of the changes, each with the id of the field
    and the new message. *)
Theorem errorMessage_changes_reported_in_order
    (i : Instance) (ms : list (option string)) (w : World (list Call)) :
  isUnmounted i = false ->
  successive_changes (errorMessage (props i)) ms ->
  form (Eff.exec (run (Some recorder) i (map Set_errorMessage ms)) w) =
  form w ++
  map (fun m => Call_updateErrorState (id (props i)) (default "" m)) ms.
Proof.
  intros Hm Hch. now rewrite run_recorded, (@errorMessage_changes_calls ms i Hm Hch).
Qed.

(** From the mount on: the initial report, then one report per change. *)
Lemma mount_then_errorMessage_changes
    (r : RawProps) (s : Slots) (ms : list (option string)) :
  successive_changes (errorMessage (withDefaults r)) ms ->
  calls_of (mount_and_run (Some recorder) r s (map Set_errorMessage ms)) =
  Call_updateErrorState (id (withDefaults r)) (errorMessage (withDefaults r))
    :: map (fun m => Call_updateErrorState (id (withDefaults r)) (default "" m)) ms.
Proof.
  intros Hch.
  unfold calls_of, Eff.exec, mount_and_run, setup, watch_errorMessage,
    if_allyForm, Eff.bind, Eff.call, Eff.ret.
  rewrite run_with_form. cbn [snd form fst quiet recorder updateErrorState].
  rewrite replay_recorder, or_else_empty.
  now rewrite (@errorMessage_changes_calls ms (mkInstance r s false) eq_refl Hch).
Qed.

Lemma errorMessage_changes_reported_in_order_witness :
  form (Eff.exec (run (Some recorder) (mounted "f" None)
                      (map Set_errorMessage
                           [Some "required"; Some "too short"; None; Some "required"]))
                 quiet) =
  [Call_updateErrorState "f" "required";
   Call_updateErrorState "f" "too short";
   Call_updateErrorState "f" "";
   Call_updateErrorState "f" "required"].
Proof.
  apply (@errorMessage_changes_reported_in_order (mounted "f" None)
           [Some "required"; Some "too short"; None; Some "required"] quiet).
  - reflexivity.
  - simpl. repeat split; discriminate.
Defined.

(** C5: for every change of [id] from [oldId] to [newId] while the current
    [errorMessage] is empty and a form context is present, the wrapper
    makes one call, [updateErrorState(newId, "")], and no
    [clearErrorState] call. *)
Theorem id_change_without_error_updates_only
    (i : Instance) (newId : string) (w : World (list Call)) :
  isUnmounted i = false ->
  errorMessage (props i) = "" ->
  newId <> id (props i) ->
  form (Eff.exec (step (Some recorder) i (Set_id newId)) w) =
  form w ++ [Call_updateErrorState newId ""].
Proof.
  intros Hm Hmsg Hnew.
  rewrite step_recorded, (@id_change_calls i newId Hm Hnew), Hmsg.
  now rewrite andb_false_r.
Qed.

Lemma id_change_without_error_updates_only_witness :
  form (Eff.exec (step (Some recorder) (mounted "a" (Some "")) (Set_id "b")) quiet) =
  [Call_updateErrorState "b" ""].
Proof.
  apply (@id_change_without_error_updates_only (mounted "a" (Some "")) "b" quiet);
    [reflexivity | reflexivity | discriminate].
Defined.

(* ================================================================== *)
(** ** The field without a form *)
(* ================================================================== *)

(** C8: take any props, slots and sequence of events, and any form context
    [ctx]. Run without a form context, the wrapper leaves the state of the
    ancestor untouched (there is no call), and it ends with the same
    instance (same props, hence same derived values), the same rendered
    tree and the same emitted events as when it runs with [ctx]. Since the
    events are arbitrary, this holds at every moment of the run. *)
Theorem standalone_field_behaves_the_same
    (A : Type) (ctx : AllyFormContext A)
    (r : RawProps) (s : Slots) (es : list Event) (w : World A) :
  let alone := mount_and_run None r s es w in
  let in_form := mount_and_run (Some ctx) r s es w in
  form (snd alone) = form w /\
  fst alone = fst in_form /\
  render (fst alone) = render (fst in_form) /\
  emitted (snd alone) = emitted (snd in_form).
Proof.
  unfold mount_and_run, setup, watch_errorMessage, if_allyForm,
    Eff.bind, Eff.call, Eff.ret. simpl.
  rewrite run_without_form, run_with_form. simpl. auto.
Qed.

(** Without a form context the recorder stays empty. *)
Lemma standalone_field_makes_no_call (r : RawProps) (s : Slots) (es : list Event) :
  calls_of (mount_and_run None r s es) = [].
Proof.
  unfold calls_of, Eff.exec, mount_and_run, setup, watch_errorMessage,
    if_allyForm, Eff.bind, Eff.ret. simpl.
  now rewrite run_without_form.
Qed.

(** Any form context ends in the state the recorded calls lead to: towards
    the form the wrapper only ever calls the two methods. *)
Lemma form_follows_recorded_calls
    (A : Type) (ctx : AllyFormContext A)
    (i : Instance) (es : list Event) (w : World A) :
  form (Eff.exec (run (Some ctx) i es) w) =
  replay ctx (calls_of (run (Some recorder) i es)) (form w).
Proof.
  unfold calls_of, Eff.exec. rewrite !run_with_form. simpl.
  now rewrite replay_recorder.
Qed.

(* ================================================================== *)
(** ** The value of the field *)
(* ================================================================== *)

Lemma next_mounted (i : Instance) (e : Event) :
  isUnmounted i = false ->
  e <> Unmount ->
  isUnmounted (next i e) = false /\
  modelValue (props (next i e)) =
    match e with
    | Set_modelValue v => v
    | Set_props r _ => raw_modelValue r
    | _ => modelValue (props i)
    end /\
  emits_of i e =
    match e with Assign_value v => [Emit_update_modelValue v] | _ => [] end.
Proof.
  intros Hm He. unfold_step. rewrite Hm.
  destruct e; simpl; try congruence;
    try match goal with |- context [if ?b then _ else _] =>
          is_var b; destruct b end;
    repeat match goal with
           | |- context [String.eqb ?a ?b] => destruct (String.eqb a b); simpl
           end; auto.
Qed.

Lemma assign_leaves_instance (i : Instance) (v : ModelValue) :
  next i (Assign_value v) = i.
Proof. unfold_step. now destruct (isUnmounted i). Qed.

Lemma value_along_run (es : list Event) (i : Instance) :
  isUnmounted i = false ->
  Forall (fun e => e <> Unmount) es ->
  modelValue (props (after i es)) = passed_modelValue (modelValue (props i)) es /\
  run_emits i es = map Emit_update_modelValue (assigned_values es).
Proof.
  intros Hm Hes. revert i Hm.
  induction Hes as [|e es He Hes IH]; intros i Hm; [split; reflexivity|].
  destruct (@next_mounted i e Hm He) as (Hm' & Hv & Hem).
  destruct (IH (next i e) Hm') as [IHv IHe].
  cbn [after run_emits passed_modelValue assigned_values fold_left flat_map].
  unfold passed_modelValue in IHv. unfold assigned_values in IHe.
  rewrite IHv, IHe, Hv, Hem, map_app. split; [reflexivity|].
  now destruct e.
Qed.

(** C9: along every run of a mounted field, with or without a form
    context, the value read through [value] is the [modelValue] the parent
    passed last, and the events emitted are exactly one [update:modelValue]
    per assignment to [value], carrying the assigned value, in order; an
    assignment leaves the instance, and so all its props, as they were. *)
Theorem value_is_passed_through
    (A : Type) (allyForm : option (AllyFormContext A))
    (i : Instance) (es : list Event) (w : World A) :
  isUnmounted i = false ->
  Forall (fun e => e <> Unmount) es ->
  value_get (props (fst (run allyForm i es w)))
    = passed_modelValue (modelValue (props i)) es /\
  emitted (snd (run allyForm i es w))
    = emitted w ++ map Emit_update_modelValue (assigned_values es) /\
  forall v, fst (step allyForm i (Assign_value v) w) = i.
Proof.
  intros Hm Hes. destruct (@value_along_run es i Hm Hes) as [Hv He].
  unfold value_get.
  destruct allyForm as [ctx|].
  - rewrite run_with_form. cbn [fst snd emitted]. rewrite Hv, He. repeat split.
    intros v. rewrite step_with_form. apply assign_leaves_instance.
  - rewrite run_without_form. cbn [fst snd emitted]. rewrite Hv, He. repeat split.
    intros v. rewrite step_without_form. apply assign_leaves_instance.
Qed.

Lemma value_is_passed_through_witness :
  let r := run (Some recorder) (mounted "f" None)
               [Assign_value (MString "a"); Set_modelValue (MString "a");
                Assign_value (MString "ab")] quiet in
  value_get (props (fst r)) = MString "a" /\
  emitted (snd r) =
    [Emit_update_modelValue (MString "a"); Emit_update_modelValue (MString "ab")] /\
  forall v, fst (step (Some recorder) (mounted "f" None) (Assign_value v) quiet)
            = mounted "f" None.
Proof.
  apply (@value_is_passed_through (list Call) (Some recorder) (mounted "f" None)
           [Assign_value (MString "a"); Set_modelValue (MString "a");
            Assign_value (MString "ab")] quiet).
  - reflexivity.
  - repeat constructor; discriminate.
Defined.

(* ================================================================== *)
(** ** The rendered tree *)
(* ================================================================== *)

Lemma append_neq_self (s t : string) : t <> "" -> s <> (s ++ t)%string.
Proof.
  intros Ht. induction s as [|c s IH]; simpl.
  - congruence.
  - intros H. injection H as H. now apply IH.
Qed.

Lemma eqb_append_head (s t u : string) :
  String.eqb (s ++ t) (s ++ u) = String.eqb t u.
Proof.
  induction s as [|c s IH]; simpl; [reflexivity|].
  now rewrite Ascii.eqb_refl.
Qed.

Section Rendered.

Variable i : Instance.

Let p : Props := props i.

(** The elements that carry an id: the label, the help text and the error
    text, each under its condition. *)
Lemma element_ids_render :
  element_ids (render i) =
  (if JS.truthy (label p) then [labelId p] else [])
  ++ (if helptext (slots i) then [helpTextId p] else [])
  ++ (if isInvalid p || reserveErrorSpace p then [errorTextId p] else []).
Proof.
  unfold render, isInvalid. fold p.
  destruct (JS.truthy (label p)), (required p), (helptext (slots i)),
    (JS.truthy (errorMessage p)), (reserveErrorSpace p); reflexivity.
Qed.

Lemma tags_render :
  tags (render i) =
  "div"
  :: (if JS.truthy (label p)
      then "label" :: (if required p then ["span"] else [])
      else [])
  ++ "div"
  :: (if helptext (slots i) then ["small"] else [])
  ++ (if isInvalid p || reserveErrorSpace p then ["div"] else []).
Proof.
  unfold render, isInvalid. fold p.
  destruct (JS.truthy (label p)), (required p), (helptext (slots i)),
    (JS.truthy (errorMessage p)), (reserveErrorSpace p); reflexivity.
Qed.

Lemma control_slots_render :
  control_slots (render i) =
  [ {| slot_id := id p;
       slot_isInvalid := isInvalid p;
       slot_describedBy := describedBy p (slots i);
       slot_labelId := labelId p;
       slot_required := required p;
       slot_autocomplete := autocomplete p |} ].
Proof.
  unfold render, isInvalid. fold p.
  destruct (JS.truthy (label p)), (required p), (helptext (slots i)),
    (JS.truthy (errorMessage p)), (reserveErrorSpace p); reflexivity.
Qed.

Lemma derived_ids_apart :
  labelId p <> helpTextId p /\ labelId p <> errorTextId p /\
  helpTextId p <> errorTextId p /\
  id p <> labelId p /\ id p <> helpTextId p /\ id p <> errorTextId p.
Proof.
  unfold labelId, helpTextId, errorTextId.
  repeat split;
    try (apply append_neq_self; discriminate);
    intros H; apply append_inv_head in H; discriminate.
Qed.

End Rendered.

(** X1: the ids of the elements the wrapper renders are pairwise distinct,
    and none of them is the [id] of the field, which is left to the
    control. *)
Theorem rendered_ids_distinct (i : Instance) :
  NoDup (element_ids (render i)) /\
  ~ In (id (props i)) (element_ids (render i)).
Proof.
  rewrite element_ids_render.
  destruct (derived_ids_apart i) as (H1 & H2 & H3 & H4 & H5 & H6).
  destruct (JS.truthy (label (props i))), (helptext (slots i)),
    (isInvalid (props i) || reserveErrorSpace (props i)); cbn [app In];
    (split; [repeat (apply NoDup_cons; [cbn [In]; intuition congruence|]);
             apply NoDup_nil
            | intuition congruence]).
Qed.







(** X3: each evaluation of the [describedBy] getter, on the props and the
    slots it reads, puts [helpTextId] among the entries exactly when the
    help slot is present at that evaluation or the caller passes it as
    [ariaDescribedby], and [errorTextId] exactly when the field is invalid
    or the caller passes it. So an evaluation does not refer to the error
    text that is only kept for its space. *)
Theorem describedBy_refers_to_help_and_error (p : Props) (slots : Slots) :
  (In (helpTextId p) (uniqueIds p slots) <->
   helptext slots = true \/ ariaDescribedby p = Some (helpTextId p)) /\
  (In (errorTextId p) (uniqueIds p slots) <->
   isInvalid p = true \/ ariaDescribedby p = Some (errorTextId p)).
Proof.
  assert (Hh : JS.truthy (helpTextId p) = true) by now apply truthy_append_r.
  assert (He : JS.truthy (errorTextId p) = true) by now apply truthy_append_r.
  pose proof (@helpTextId_not_labelId p) as Nh.
  pose proof (@errorTextId_not_labelId p) as Ne.
  assert (Nhe : helpTextId p <> errorTextId p).
  { unfold helpTextId, errorTextId. intros H.
    apply append_inv_head in H. discriminate. }
  split; rewrite uniqueIds_In, ids_In; intuition congruence.
Qed.

(** What an event other than the unmount leaves behind. *)
Lemma next_props (i : Instance) (e : Event) :
  isUnmounted i = false ->
  e <> Unmount ->
  next i e = {| raw := set_prop e (raw i);
                slots := set_slot e (slots i);
                isUnmounted := false |}.
Proof.
  intros Hm He. destruct i as [r s u]. simpl in Hm. subst u.
  unfold_step. destruct e; simpl; try congruence;
    try match goal with |- context [if ?b then _ else _] =>
          is_var b; destruct b end;
    repeat match goal with
           | |- context [String.eqb ?a ?b] => destruct (String.eqb a b); simpl
           end; reflexivity.
Qed.

(** X4: with [reserveErrorSpace] on, a change of [errorMessage] on a
    mounted field, to or from the empty message as well, leaves the rendered
    elements as they are: the same tags and the same ids, in the same
    order. *)
Theorem reserved_space_keeps_the_layout
    (A : Type) (allyForm : option (AllyFormContext A))
    (i : Instance) (m : option string) (w : World A) :
  isUnmounted i = false ->
  reserveErrorSpace (props i) = true ->
  tags (render (fst (step allyForm i (Set_errorMessage m) w))) = tags (render i) /\
  element_ids (render (fst (step allyForm i (Set_errorMessage m) w)))
    = element_ids (render i).
Proof.
  intros Hm Hr.
  assert (E : fst (step allyForm i (Set_errorMessage m) w)
              = next i (Set_errorMessage m)).
  { destruct allyForm as [ctx|];
      [now rewrite step_with_form | now rewrite step_without_form]. }
  rewrite E, (@next_props i (Set_errorMessage m) Hm) by discriminate.
  rewrite !tags_render, !element_ids_render.
  unfold props in *. cbn in *. rewrite Hr, !orb_true_r. auto.
Qed.

Lemma reserved_space_keeps_the_layout_witness :
  tags (render (fst (step (Some recorder) (mounted "f" None)
                          (Set_errorMessage (Some "required")) quiet)))
  = ["div"; "label"; "div"; "div"].
Proof.
  apply (proj1 (@reserved_space_keeps_the_layout (list Call) (Some recorder)
                  (mounted "f" None) (Some "required") quiet eq_refl eq_refl)).
Defined.

(** Without [reserveErrorSpace] the error text comes and goes with the
    error. *)
Example unreserved_space_changes_the_layout :
  let i := {| raw := set_prop (Set_reserveErrorSpace (Some false))
                              (raw (mounted "f" None));
              slots := without_help;
              isUnmounted := false |} in
  tags (render i) = ["div"; "label"; "div"] /\
  tags (render (next i (Set_errorMessage (Some "required"))))
    = ["div"; "label"; "div"; "div"].
Proof. split; reflexivity. Qed.

(** X5: an error message that is not empty is always shown, whatever
    [reserveErrorSpace]: the root carries the class [ally-has-error], and
    the tree holds the element [errorTextId] with the class [error-text]
    alone (not hidden) and the message as its text. *)
Theorem error_message_is_shown (i : Instance) :
  errorMessage (props i) <> "" ->
  (exists children,
     render i = Element "div" [("class", "form-group ally-has-error")] children) /\
  In (Element "div"
        [("id", errorTextId (props i)); ("class", "error-text")]
        [Text (errorMessage (props i))])
     (descendants (render i)).
Proof.
  intros H. apply truthy_iff in H. unfold render, isInvalid. rewrite H.
  split; [eexists; reflexivity|].
  destruct (JS.truthy (label (props i))), (required (props i)),
    (helptext (slots i)), (reserveErrorSpace (props i)); cbn;
    repeat (first [left; reflexivity | right]).
Qed.

Lemma error_message_is_shown_witness :
  In (Element "div" [("id", "f-error"); ("class", "error-text")] [Text "required"])
     (descendants (render (mounted "f" (Some "required")))).
Proof.
  apply (proj2 (@error_message_is_shown (mounted "f" (Some "required"))
                  ltac:(discriminate))).
Defined.

(** X6: the label element, with the id [labelId], is rendered exactly when
    [label] is not empty, and the marker of a required field exactly when
    moreover [required] is set, since it sits inside the label; the
    [control] slot receives [labelId] in every case, also when no element
    carries it. *)
Theorem label_is_rendered_when_not_empty (i : Instance) :
  (In "label" (tags (render i)) <-> label (props i) <> "") /\
  (In "span" (tags (render i)) <->
   label (props i) <> "" /\ required (props i) = true) /\
  (In (labelId (props i)) (element_ids (render i)) <-> label (props i) <> "") /\
  map slot_labelId (control_slots (render i)) = [labelId (props i)].
Proof.
  rewrite tags_render, element_ids_render, control_slots_render.
  rewrite <- truthy_iff.
  destruct (derived_ids_apart i) as (H1 & H2 & _).
  destruct (JS.truthy (label (props i))), (required (props i)),
    (helptext (slots i)),
    (isInvalid (props i) || reserveErrorSpace (props i));
    cbn [app In map slot_labelId];
    repeat split; try tauto; try discriminate; try congruence;
    intuition (try discriminate; try congruence).
Qed.

(* ================================================================== *)
(** ** The log of calls along the life of a field *)
(* ================================================================== *)

(** The calls of the unmount, and of any other event, on a mounted
    field. *)
Lemma step_calls_Unmount (i : Instance) :
  isUnmounted i = false ->
  step_calls i Unmount = [Call_clearErrorState (id (props i))].
Proof. intros Hm. unfold_step. now rewrite Hm. Qed.

Lemma step_calls_mounted (i : Instance) (e : Event) :
  isUnmounted i = false ->
  e <> Unmount ->
  step_calls i e = render_calls (id_first_of e) (props i) (props (next i e)).
Proof.
  intros Hm He. rewrite (@next_props i e Hm He).
  unfold render_calls, id_calls, errorMessage_calls.
  unfold_step. rewrite Hm. unfold props.
  destruct e; cbn; try congruence;
    try match goal with |- context [if ?b then _ else _] =>
          is_var b; destruct b end;
    rewrite ?String.eqb_refl, ?or_else_empty; cbn;
    repeat match goal with
           | |- context [String.eqb ?a ?b] => destruct (String.eqb a b); cbn
           | |- context [JS.truthy ?a] => destruct (JS.truthy a); cbn
           end; reflexivity.
Qed.

Lemma next_Unmount (i : Instance) :
  isUnmounted i = false ->
  next i Unmount = {| raw := raw i; slots := slots i; isUnmounted := true |}.
Proof. intros Hm. unfold_step. now rewrite Hm. Qed.

Lemma next_id_message (i : Instance) (e : Event) :
  isUnmounted i = false ->
  e <> Unmount ->
  isUnmounted (next i e) = false /\
  id (props (next i e)) =
    match e with
    | Set_id v => v
    | Set_props r _ => raw_id r
    | _ => id (props i)
    end /\
  errorMessage (props (next i e)) =
    match e with
    | Set_errorMessage m => default "" m
    | Set_props r _ => default "" (raw_errorMessage r)
    | _ => errorMessage (props i)
    end.
Proof.
  intros Hm He. rewrite (@next_props i e Hm He).
  destruct e; cbn; auto.
Qed.

(** A whole life against the recorder: the report of [setup], then the
    calls of the events. *)
Lemma mount_and_run_recorded (r : RawProps) (s : Slots) (es : list Event) :
  fst (mount_and_run (Some recorder) r s es quiet) = after (mkInstance r s false) es /\
  calls_of (mount_and_run (Some recorder) r s es) =
  Call_updateErrorState (id (withDefaults r)) (errorMessage (withDefaults r))
    :: run_calls (mkInstance r s false) es.
Proof.
  unfold calls_of, Eff.exec, mount_and_run, setup, watch_errorMessage,
    if_allyForm, Eff.bind, Eff.call, Eff.ret.
  rewrite run_with_form. cbn [snd form fst quiet recorder updateErrorState].
  now rewrite replay_recorder, or_else_empty.
Qed.

Lemma Event_Unmount_dec (e : Event) : {e = Unmount} + {e <> Unmount}.
Proof. destruct e; (now left) || (right; discriminate). Qed.

(** A render makes no call exactly when it leaves [id] and [errorMessage]
    as they are; when it makes calls, the last one reports the new [id]
    and the new [errorMessage]. *)
Lemma render_calls_nil (id_first : bool) (old new : Props) :
  render_calls id_first old new = [] <->
  id new = id old /\ errorMessage new = errorMessage old.
Proof.
  unfold render_calls, id_calls, errorMessage_calls.
  destruct (String.eqb_spec (id new) (id old)),
    (String.eqb_spec (errorMessage new) (errorMessage old)),
    id_first, (JS.truthy (id old) && JS.truthy (errorMessage new));
    cbn; split; intros H; try discriminate H; try tauto;
    destruct H; congruence.
Qed.

Lemma render_calls_last (id_first : bool) (old new : Props) :
  render_calls id_first old new <> [] ->
  exists before,
    render_calls id_first old new =
    before ++ [Call_updateErrorState (id new) (errorMessage new)].
Proof.
  unfold render_calls, id_calls, errorMessage_calls.
  destruct (String.eqb (id new) (id old)),
    (String.eqb (errorMessage new) (errorMessage old)),
    id_first, (JS.truthy (id old) && JS.truthy (errorMessage new));
    cbn; intros H; try congruence;
    match goal with
    | |- exists before, ?l = _ =>
        first [ exists [] ; reflexivity
              | exists (removelast l); reflexivity ]
    end.
Qed.

(** X7: on a mounted field with a form context, an event makes no call
    exactly when it is not the unmount and leaves [id] and [errorMessage]
    as they are. So a change of label, value, [required],
    [ariaDescribedby], [reserveErrorSpace], [autocomplete] or help content,
    an assignment to [value], and a prop set to the value it has, never
    reach the form; the unmount and a real change of [id] or
    [errorMessage] always do. *)
Theorem form_is_called_exactly_when_needed (i : Instance) (e : Event) :
  isUnmounted i = false ->
  calls_of (step (Some recorder) i e) = [] <-> silent i e.
Proof.
  intros Hm. fold (step_calls i e).
  destruct (Event_Unmount_dec e) as [-> | Hu].
  - rewrite (@step_calls_Unmount i Hm). cbn. split; [discriminate | tauto].
  - rewrite (@step_calls_mounted i e Hm Hu), render_calls_nil.
    destruct (@next_id_message i e Hm Hu) as (_ & -> & ->).
    destruct e; cbn [silent]; try tauto; try congruence.
Qed.

Lemma form_is_called_exactly_when_needed_witness :
  calls_of (step (Some recorder) (mounted "f" None) (Set_errorMessage (Some ""))) = [].
Proof.
  apply (proj2 (@form_is_called_exactly_when_needed (mounted "f" None)
                  (Set_errorMessage (Some "")) eq_refl)).
  reflexivity.
Defined.

Lemma in_sync_step (i : Instance) (e : Event) (earlier : list Call) :
  isUnmounted i = false ->
  e <> Unmount ->
  exists earlier',
    (earlier ++ [Call_updateErrorState (id (props i)) (errorMessage (props i))])
      ++ step_calls i e
    = earlier' ++ [Call_updateErrorState (id (props (next i e)))
                                         (errorMessage (props (next i e)))].
Proof.
  intros Hm He. rewrite (@step_calls_mounted i e Hm He).
  destruct (render_calls (id_first_of e) (props i) (props (next i e)))
    as [|c l] eqn:E.
  - apply render_calls_nil in E as [-> ->]. rewrite app_nil_r. eauto.
  - destruct (@render_calls_last (id_first_of e) (props i) (props (next i e)))
      as [before Hb]; [congruence|].
    rewrite <- E, Hb, app_assoc. eauto.
Qed.

Lemma in_sync_run (es : list Event) (i : Instance) (earlier : list Call) :
  isUnmounted i = false ->
  Forall (fun e => e <> Unmount) es ->
  exists earlier',
    (earlier ++ [Call_updateErrorState (id (props i)) (errorMessage (props i))])
      ++ run_calls i es
    = earlier' ++ [Call_updateErrorState (id (props (after i es)))
                                         (errorMessage (props (after i es)))].
Proof.
  intros Hm Hes. revert i earlier Hm.
  induction Hes as [|e es He Hes IH]; intros i earlier Hm.
  - cbn. rewrite app_nil_r. eauto.
  - cbn [run_calls after]. rewrite app_assoc.
    destruct (@in_sync_step i e earlier Hm He) as [mid ->].
    apply IH. now destruct (@next_id_message i e Hm He).
Qed.

(** X8: as long as the field is mounted, the last call the form has
    received is [updateErrorState] with the [id] and the [errorMessage] the
    field has now: the form is never behind the props. *)
Theorem last_call_is_in_sync (r : RawProps) (s : Slots) (es : list Event) :
  Forall (fun e => e <> Unmount) es ->
  exists earlier,
    calls_of (mount_and_run (Some recorder) r s es) =
    earlier ++
    [Call_updateErrorState
       (id (props (fst (mount_and_run (Some recorder) r s es quiet))))
       (errorMessage (props (fst (mount_and_run (Some recorder) r s es quiet))))].
Proof.
  intros Hes. destruct (mount_and_run_recorded r s es) as [-> ->].
  exact (@in_sync_run es (mkInstance r s false) [] eq_refl Hes).
Qed.

Lemma last_call_is_in_sync_witness :
  exists earlier,
    calls_of (mount_and_run (Some recorder) (raw (mounted "a" None)) without_help
                [Set_errorMessage (Some "required"); Set_label "Age"; Set_id "b"])
    = earlier ++ [Call_updateErrorState "b" "required"].
Proof.
  apply (@last_call_is_in_sync (raw (mounted "a" None)) without_help
           [Set_errorMessage (Some "required"); Set_label "Age"; Set_id "b"]).
  repeat constructor; discriminate.
Defined.

Lemma emits_of_In (i : Instance) (e : Event) (x : Emitted) :
  In x (emits_of i e) ->
  exists v, x = Emit_update_modelValue v /\ e = Assign_value v.
Proof.
  unfold_step. destruct (isUnmounted i); [cbn; intros []|].
  destruct e; cbn;
    try match goal with |- context [if ?b then _ else _] =>
          is_var b; destruct b end;
    repeat match goal with
           | |- context [String.eqb ?a ?b] => destruct (String.eqb a b); cbn
           end;
    intros H; try contradiction.
  destruct H as [<- | []]. eauto.
Qed.

Lemma run_emits_In (es : list Event) (i : Instance) (x : Emitted) :
  In x (run_emits i es) ->
  exists v, x = Emit_update_modelValue v /\ In (Assign_value v) es.
Proof.
  revert i. induction es as [|e es IH]; intros i; cbn; [intros []|].
  rewrite in_app_iff. intros [H | H].
  - apply emits_of_In in H as (v & -> & ->). eauto.
  - apply IH in H as (v & -> & H). eauto.
Qed.

(** X11: whatever happens to a field, with or without a form context, all
    it ever emits are [update:modelValue] events for values that were
    assigned to [value]; the [blur] event it declares is never emitted. *)
Theorem only_model_updates_are_emitted
    (A : Type) (allyForm : option (AllyFormContext A))
    (r : RawProps) (s : Slots) (es : list Event) (w : World A) :
  exists ems,
    emitted (snd (mount_and_run allyForm r s es w)) = emitted w ++ ems /\
    (forall x, In x ems ->
       exists v, x = Emit_update_modelValue v /\ In (Assign_value v) es) /\
    ~ In Emit_blur ems.
Proof.
  exists (run_emits (mkInstance r s false) es).
  split; [|split].
  - unfold mount_and_run, setup, watch_errorMessage, if_allyForm,
      Eff.bind, Eff.call, Eff.ret.
    destruct allyForm as [ctx|]; cbn;
      [now rewrite run_with_form | now rewrite run_without_form].
  - intros x. apply run_emits_In.
  - intros H. apply run_emits_In in H as (v & H & _). discriminate.
Qed.

(** X12: a field to which only [id], [label] and [modelValue] are passed is
    valid and not required; its error text is in the tree, hidden and
    empty; [describedBy] is [helpTextId] when help content is present and
    [undefined] otherwise; and its [setup] reports the empty message to a
    form context. *)
Theorem field_with_required_props_only
    (i l : string) (v : ModelValue) (s : Slots) :
  let inst := {| raw := bare i l v; slots := s; isUnmounted := false |} in
  isInvalid (props inst) = false /\
  required (props inst) = false /\
  In (Element "div"
        [("id", (i ++ "-error")%string); ("class", "error-text reserve-space")]
        [Text ""])
     (descendants (render inst)) /\
  describedBy (props inst) s
    = (if helptext s then Some (i ++ "-help")%string else None) /\
  calls_of (setup (Some recorder) (bare i l v) s) = [Call_updateErrorState i ""].
Proof.
  cbn zeta. repeat split.
  - unfold render. cbn.
    destruct (JS.truthy l), (helptext s); cbn;
      repeat (first [left; reflexivity | right]).
  - unfold describedBy, uniqueIds, ids, JS.Array_from, JS.new_Set,
      helpTextId, labelId. cbn.
    destruct (helptext s); cbn; [|reflexivity].
    rewrite (@truthy_append_r i "-help" eq_refl). cbn.
    now rewrite eqb_append_head.
Qed.

(** X13: when [label] is not empty, the label element points at the
    control: its [for] is the [id] handed to the [control] slot and its
    [id] is the [labelId] handed to that slot. *)
Theorem label_points_at_the_control (i : Instance) :
  label (props i) <> "" ->
  exists attrs children sp,
    In (Element "label" attrs children) (descendants (render i)) /\
    control_slots (render i) = [sp] /\
    attr "for" attrs = Some (slot_id sp) /\
    attr "id" attrs = Some (slot_labelId sp).
Proof.
  intros H. apply truthy_iff in H.
  eexists _, _, _. rewrite control_slots_render.
  split; [|split; [reflexivity | split]].
  - unfold render. rewrite H. cbn. right. left. reflexivity.
  - reflexivity.
  - reflexivity.
Qed.

Lemma label_points_at_the_control_witness :
  exists attrs children sp,
    In (Element "label" attrs children)
       (descendants (render (mounted "f" None))) /\
    control_slots (render (mounted "f" None)) = [sp] /\
    attr "for" attrs = Some (slot_id sp) /\
    attr "id" attrs = Some (slot_labelId sp).
Proof.
  apply (@label_points_at_the_control (mounted "f" None)). discriminate.
Defined.

(** X14: [describedBy] depends on the props through [id],
    [ariaDescribedby] and whether [errorMessage] is empty only: neither the
    text of the error nor any other prop changes it. *)
Theorem describedBy_ignores_the_error_text (p q : Props) (slots : Slots) :
  id p = id q ->
  ariaDescribedby p = ariaDescribedby q ->
  (errorMessage p = "" <-> errorMessage q = "") ->
  describedBy p slots = describedBy q slots.
Proof.
  intros Hid Hextra Hmsg.
  assert (Hinv : isInvalid p = isInvalid q).
  { unfold isInvalid.
    destruct (errorMessage p), (errorMessage q); cbn; try reflexivity;
      destruct Hmsg as [H1 H2]; [specialize (H1 eq_refl) | specialize (H2 eq_refl)];
      discriminate. }
  unfold describedBy, uniqueIds, ids, helpTextId, errorTextId, labelId.
  now rewrite Hid, Hextra, Hinv.
Qed.

Lemma describedBy_ignores_the_error_text_witness :
  describedBy (field "f" (Some "ext1") "required") with_help
  = describedBy (field "f" (Some "ext1") "too short") with_help.
Proof.
  apply (@describedBy_ignores_the_error_text
           (field "f" (Some "ext1") "required")
           (field "f" (Some "ext1") "too short") with_help);
    [reflexivity | reflexivity | split; discriminate].
Defined.

(* ================================================================== *)
(** ** The errors that stand in the log *)
(* ================================================================== *)

Lemma truthy_false (s : string) : JS.truthy s = false -> s = "".
Proof. now destruct s. Qed.

(** A render keeps the standing error right, unless it drops it with the
    id. *)
Lemma standing_render (id_first : bool) (old new : Props) :
  id old <> "" ->
  ~ drops_error_with_id old new ->
  fold_left settle (render_calls id_first old new)
            (if isInvalid old then [id old] else [])
  = (if isInvalid new then [id new] else []).
Proof.
  intros Hid Hdrop. apply truthy_iff in Hid.
  unfold render_calls, id_calls, errorMessage_calls, isInvalid, without.
  destruct (String.eqb (id new) (id old)) eqn:Ei;
    destruct (String.eqb (errorMessage new) (errorMessage old)) eqn:Em.
  - (* nothing *)
    apply String.eqb_eq in Ei, Em. rewrite Ei, Em. now destruct id_first.
  - (* the message alone *)
    apply String.eqb_eq in Ei. rewrite Ei. clear Ei Em Hdrop Hid.
    destruct (JS.truthy (errorMessage old)) eqn:To,
      (JS.truthy (errorMessage new)) eqn:Tn, id_first; settle_all.
  - (* the id alone *)
    apply String.eqb_eq in Em. rewrite Em. clear Em Hdrop.
    assert (Ei' : String.eqb (id old) (id new) = false)
      by now rewrite String.eqb_sym.
    destruct (JS.truthy (errorMessage old)) eqn:To, id_first; settle_all.
  - (* both *)
    assert (Ei' : String.eqb (id old) (id new) = false)
      by now rewrite String.eqb_sym.
    destruct (JS.truthy (errorMessage old)) eqn:To,
      (JS.truthy (errorMessage new)) eqn:Tn.
    2: { exfalso. apply Hdrop. split; [now apply String.eqb_neq|].
         split; [now apply truthy_iff | now apply truthy_false]. }
    all: clear Em Hdrop; destruct id_first; settle_all.
Qed.

Lemma standing_run (es : list Event) (i : Instance) :
  (isUnmounted i = false -> id (props i) <> "") ->
  tracked i es ->
  fold_left settle (run_calls i es) (standing i) = standing (after i es).
Proof.
  revert i. induction es as [|e es IH]; intros i Hid Hes; [reflexivity|].
  destruct Hes as (Hid' & Hdrop & Hes).
  destruct (isUnmounted i) eqn:Hm.
  - destruct (@unmounted_inert i (e :: es) Hm) as (-> & -> & _). reflexivity.
  - specialize (Hid eq_refl). cbn [run_calls after]. rewrite fold_left_app.
    rewrite <- (IH (next i e) (fun _ => Hid') Hes). f_equal.
    destruct (Event_Unmount_dec e) as [-> | Hu].
    + rewrite (@step_calls_Unmount i Hm), (@next_Unmount i Hm).
      unfold standing. rewrite Hm. cbn.
      destruct (isInvalid (props i)); cbn; now rewrite ?String.eqb_refl.
    + rewrite (@step_calls_mounted i e Hm Hu). unfold standing.
      destruct (@next_id_message i e Hm Hu) as (-> & _ & _). rewrite Hm.
      now apply standing_render.
Qed.

(** X9: when the field never takes the empty id and no render changes the
    id while it empties an error message that was not empty, the ids that
    stand with an error in the log of calls are, at every moment: the
    current id alone if the field is mounted and its [errorMessage] is not
    empty, none otherwise. No id that the field has left keeps an error,
    and nothing is left after the unmount. *)
Theorem no_error_is_left_behind (r : RawProps) (s : Slots) (es : list Event) :
  raw_id r <> "" ->
  tracked (mkInstance r s false) es ->
  outstanding (calls_of (mount_and_run (Some recorder) r s es)) =
  standing (fst (mount_and_run (Some recorder) r s es quiet)).
Proof.
  intros Hid Hes. destruct (mount_and_run_recorded r s es) as [-> ->].
  unfold outstanding. cbn [fold_left].
  rewrite <- (@standing_run es (mkInstance r s false) (fun _ => Hid) Hes).
  f_equal.
Qed.

Lemma no_error_is_left_behind_witness :
  outstanding
    (calls_of (mount_and_run (Some recorder) (raw (mounted "a" (Some "required")))
                 without_help
                 [Set_id "b"; Set_errorMessage None;
                  Set_props (raw (mounted "c" (Some "too short"))) true;
                  Set_props (raw (mounted "d" (Some "too long"))) false]))
  = ["d"].
Proof.
  apply (@no_error_is_left_behind (raw (mounted "a" (Some "required")))
           without_help
           [Set_id "b"; Set_errorMessage None;
            Set_props (raw (mounted "c" (Some "too short"))) true;
            Set_props (raw (mounted "d" (Some "too long"))) false]).
  - discriminate.
  - cbn. unfold drops_error_with_id. cbn.
    repeat split; try discriminate;
      intros (H0 & H1 & H2);
      first [discriminate H2 | now apply H1 | now apply H0].
Defined.

(** With an empty id the error reported at the mount stays in the log,
    also after the unmount. *)
Example error_left_behind_under_empty_id :
  outstanding
    (calls_of (mount_and_run (Some recorder) (raw (mounted "" (Some "required")))
                 without_help [Set_id "b"; Unmount]))
  = [""].
Proof. reflexivity. Qed.

(** So does the error of the old id when one render changes the id and
    empties the message, in either order of the watchers. *)
Example error_left_behind_by_joint_render :
  forall id_first,
  outstanding
    (calls_of (mount_and_run (Some recorder) (raw (mounted "a" (Some "required")))
                 without_help [Set_props (raw (mounted "b" None)) id_first; Unmount]))
  = ["a"].
Proof. intros []; reflexivity. Qed.

(** X15: a render that changes the id of a mounted field and, at once,
    empties its error message makes two calls [updateErrorState(newId, "")]
    and no [clearErrorState(oldId)], whichever of [id] and [errorMessage]
    the parent binds first: the watcher on [id] reads the message that is
    already empty. *)
Theorem joint_render_skips_the_clear
    (i : Instance) (r : RawProps) (id_first : bool) (w : World (list Call)) :
  isUnmounted i = false ->
  raw_id r <> id (props i) ->
  errorMessage (props i) <> "" ->
  default "" (raw_errorMessage r) = "" ->
  form (Eff.exec (step (Some recorder) i (Set_props r id_first)) w) =
  form w ++ [Call_updateErrorState (raw_id r) "";
             Call_updateErrorState (raw_id r) ""].
Proof.
  intros Hm Hid Hold Hnew.
  rewrite step_recorded, (@step_calls_mounted i _ Hm) by discriminate.
  destruct (@next_id_message i (Set_props r id_first) Hm) as (_ & Hi & Hmsg);
    [discriminate|].
  unfold render_calls, id_calls, errorMessage_calls.
  rewrite Hi, Hmsg, Hnew, (eqb_false_of_neq Hid).
  assert (E : String.eqb "" (errorMessage (props i)) = false).
  { apply String.eqb_neq. congruence. }
  rewrite E, andb_false_r. now destruct id_first.
Qed.

Lemma joint_render_skips_the_clear_witness :
  form (Eff.exec (step (Some recorder) (mounted "a" (Some "required"))
                       (Set_props (raw (mounted "b" None)) true))
                 quiet)
  = [Call_updateErrorState "b" ""; Call_updateErrorState "b" ""].
Proof.
  apply (@joint_render_skips_the_clear (mounted "a" (Some "required"))
           (raw (mounted "b" None)) true quiet);
    [reflexivity | discriminate | discriminate | reflexivity].
Defined.

(* ================================================================== *)
(** ** The ids that are cleared *)
(* ================================================================== *)

Lemma clears_known_render
    (id_first : bool) (old new : Props) (known : list string) (rest : list Call) :
  In (id old) known ->
  (forall known', In (id new) known' -> clears_known known' rest) ->
  clears_known known (render_calls id_first old new ++ rest).
Proof.
  intros Hold Hrest.
  unfold render_calls, id_calls, errorMessage_calls.
  destruct (String.eqb_spec (id new) (id old)) as [Ei | Ei],
    (String.eqb (errorMessage new) (errorMessage old)),
    id_first, (JS.truthy (id old) && JS.truthy (errorMessage new));
    cbn [app clears_known];
    repeat match goal with
           | |- _ /\ _ => split
           | |- In _ _ => cbn [In]; tauto
           end;
    apply Hrest; first [ now left | now rewrite Ei ].
Qed.

Lemma clears_known_run (es : list Event) (i : Instance) (known : list string) :
  (isUnmounted i = false -> In (id (props i)) known) ->
  clears_known known (run_calls i es).
Proof.
  revert i known. induction es as [|e es IH]; intros i known Hk; [exact I|].
  destruct (isUnmounted i) eqn:Hm.
  - now destruct (@unmounted_inert i (e :: es) Hm) as (_ & -> & _).
  - specialize (Hk eq_refl). cbn [run_calls].
    destruct (Event_Unmount_dec e) as [-> | Hu].
    + rewrite (@step_calls_Unmount i Hm). cbn. split; [exact Hk|].
      apply IH. rewrite (@next_Unmount i Hm). discriminate.
    + rewrite (@step_calls_mounted i e Hm Hu).
      apply clears_known_render; [exact Hk|].
      intros known' H. apply IH. intros _. exact H.
Qed.

(** X10: along the whole life of a field, every [clearErrorState] the
    form receives is for an id that an earlier [updateErrorState] has
    named: the wrapper never clears an id it has not reported. *)
Theorem only_reported_ids_are_cleared (r : RawProps) (s : Slots) (es : list Event) :
  clears_known [] (calls_of (mount_and_run (Some recorder) r s es)).
Proof.
  destruct (mount_and_run_recorded r s es) as [_ ->]. cbn [clears_known].
  apply clears_known_run. intros _. now left.
Qed.
